(** * A shallow embedding of the web crawler of [main.go]

    The crawler keeps a FIFO [Queue] of pending URLs and a [CrawledSet] of
    FNV-1a fingerprints, loads a disallow list from robots.txt, fetches one
    page at a time with up to five attempts, and lets a parser goroutine per
    fetched page push the admissible links back onto the queue.

    Conventions of the embedding:
    - Go's [int] and [uint64] are [Z] with the wrap-around written out
      ([wrap_int], [wrap_u64]);
    - Go strings are byte strings: [string] of the standard library;
    - [map[uint64]bool] is a [gmap Z bool]; a missing key reads as [false];
    - a method with a pointer receiver takes the struct and returns the new
      one;
    - a function that can panic returns a [go_result]. *)

From Stdlib Require Import ZArith Lia List String Ascii Bool.
From stdpp Require Import base gmap strings list.

Local Open Scope string_scope.
Local Open Scope list_scope.
Local Open Scope Z_scope.

(** ** Machine integers *)

(** Go's [int] on a 64-bit platform: two's complement on 64 bits. *)
Definition wrap_int (z : Z) : Z := (z + 2 ^ 63) mod 2 ^ 64 - 2 ^ 63.

(** Go's [uint64]. *)
Definition wrap_u64 (z : Z) : Z := z mod 2 ^ 64.

Definition in_int (z : Z) : Prop := - 2 ^ 63 <= z < 2 ^ 63.

(** ** Outcomes of a Go call *)

(** The run-time errors of the Go runtime that this program can raise. *)
Inductive runtime_error : Type :=
| IndexOutOfRange (index len : Z).

(** A call either returns its results or panics with a run-time error. *)
Inductive go_result (A : Type) : Type :=
| Returned (a : A)
| Panicked (e : runtime_error).

Arguments Returned {A} a.
Arguments Panicked {A} e.

Definition is_panic {A : Type} (r : go_result A) : bool :=
  match r with
  | Returned _ => false
  | Panicked _ => true
  end.

(** ** The [strings] package *)

(** [strings.HasPrefix(s, prefix)]. *)
Definition HasPrefix (s pre : string) : bool := String.prefix pre s.

(** [strings.HasSuffix(s, suffix)]: the last [len(suffix)] bytes of [s] are
    [suffix]. *)
Definition HasSuffix (s suf : string) : bool :=
  (String.length suf <=? String.length s)%nat &&
  String.eqb (substring (String.length s - String.length suf) (String.length suf) s) suf.

(** [strings.TrimSuffix(s, suffix)]. *)
Definition TrimSuffix (s suf : string) : string :=
  if HasSuffix s suf
  then substring 0 (String.length s - String.length suf) s
  else s.

(** [strings.Contains(s, substr)]: [substr] starts at some byte offset of
    [s]. *)
Fixpoint Contains (s substr : string) : bool :=
  HasPrefix s substr ||
  match s with
  | EmptyString => false
  | String _ s' => Contains s' substr
  end.

(** What [Contains] decides: [substr] occurs inside [s]. *)
Definition occurs_in (substr s : string) : Prop :=
  exists before after : string, s = before +:+ substr +:+ after.

(** ** The frontier: [Queue] *)

Record Queue : Type := mkQueue {
  totalQueued : Z;
  number : Z;
  elements : list string
}.

(** [func (q *Queue) enqueue(url string)] *)
Definition enqueue (url : string) (q : Queue) : Queue :=
  {| totalQueued := wrap_int (totalQueued q + 1);
     number := wrap_int (number q + 1);
     elements := elements q ++ [url] |}.

(** [func (q *Queue) dequeue() string]: [q.elements[0]] panics on an empty
    slice, before anything is changed. *)
Definition dequeue (q : Queue) : go_result (string * Queue) :=
  match elements q with
  | [] => Panicked (IndexOutOfRange 0 0)
  | url :: rest =>
      Returned (url, {| totalQueued := totalQueued q;
                        number := wrap_int (number q - 1);
                        elements := rest |})
  end.

(** [func (q *Queue) size() int] *)
Definition size_q (q : Queue) : Z := number q.

(** [Queue{totalQueued: 0, number: 0, elements: make([]string, 0)}] *)
Definition new_queue : Queue :=
  {| totalQueued := 0; number := 0; elements := [] |}.

(** ** The visited set: [CrawledSet] *)

(** The field [number] of [CrawledSet] is [cnumber] here and the two [size]
    methods are [size_q] and [size_c]: the queue has the same names. *)
Record CrawledSet : Type := mkCrawledSet {
  data : gmap Z bool;
  cnumber : Z
}.

Definition fnv_offset64 : Z := 14695981039346656037.
Definition fnv_prime64 : Z := 1099511628211.

Definition byte_of (a : ascii) : Z := Z.of_N (N_of_ascii a).

(** One step of [fnv.New64a().Write]: xor the byte in, then multiply. *)
Definition fnv1a_step (h : Z) (a : ascii) : Z :=
  wrap_u64 (Z.lxor h (byte_of a) * fnv_prime64).

Fixpoint fnv1a (h : Z) (s : string) : Z :=
  match s with
  | EmptyString => h
  | String a s' => fnv1a (fnv1a_step h a) s'
  end.

(** [func hashUrl(url string) uint64] *)
Definition hashUrl (url : string) : Z := fnv1a fnv_offset64 url.

(** [func (c *CrawledSet) add(url string)] *)
Definition add (url : string) (c : CrawledSet) : CrawledSet :=
  {| data := <[hashUrl url := true]> (data c);
     cnumber := wrap_int (cnumber c + 1) |}.

(** [func (c *CrawledSet) contains(url string) bool]: reading a missing key
    of a Go map gives the zero value [false]. *)
Definition contains (c : CrawledSet) (url : string) : bool :=
  default false (data c !! hashUrl url).

(** [func (c *CrawledSet) size() int] *)
Definition size_c (c : CrawledSet) : Z := cnumber c.

(** [CrawledSet{data: make(map[uint64]bool)}] *)
Definition new_crawled : CrawledSet := {| data := ∅; cnumber := 0 |}.

(** ** The robots filter *)

(** [var host string] *)
Definition host : string := "https://www.sjsu.edu/".

Section Robots.

(** [strings.Fields]: the fields of a line, split around white space. *)
Variable Fields : string -> list string.

(** The body of the scanner loop of [robotsTxtFetcher] for one line. *)
Definition scan_line (disabledLinks : list string) (line : string) : list string :=
  if Contains line "Disallow:" then
    match Fields line with
    | _ :: path :: _ => disabledLinks ++ [path]
    | _ => disabledLinks
    end
  else disabledLinks.

(** [func robotsTxtFetcher()], as a function of what the request gave:
    [None] when building or sending the request failed (the function logs
    and returns), [Some lines] with the lines the scanner yields from the
    body otherwise.  The global [disabledLinks] is passed and returned. *)
Definition robotsTxtFetcher (resp : option (list string))
    (disabledLinks : list string) : list string :=
  match resp with
  | None => disabledLinks
  | Some lines => fold_left scan_line lines disabledLinks
  end.

End Robots.

(** [func isAllowed(url string) bool], over the global [disabledLinks]. *)
Fixpoint isAllowed (disabledLinks : list string) (url : string) : bool :=
  match disabledLinks with
  | [] => true
  | disallowed :: rest =>
      if Contains url disallowed then false else isAllowed rest url
  end.

(** ** The output file *)

(** [result.txt] in the working directory: missing, or a writable regular
    file with the given content. *)
Inductive fs_file : Type :=
| Absent
| Present (content : string).

(** Flag values of package [os] (Linux). *)
Definition O_WRONLY : Z := 1.
Definition O_CREATE : Z := 64.
Definition O_APPEND : Z := 1024.

(** What [writeToFile] hands to [printError]: its two error sites.  The log
    lines of [fetcher] are the [EvLog] events of its trace. *)
Inductive log_entry : Type :=
| ErrorAtLine192
| ErrorAtLine198.

(** [os.OpenFile(name, flag, perm)]: the file after the call and whether a
    valid handle came back.  A missing file is created only under
    [O_CREATE]. *)
Definition OpenFile (fs : fs_file) (flag : Z) : fs_file * bool :=
  match fs with
  | Present content => (Present content, true)
  | Absent =>
      if negb (Z.land flag O_CREATE =? 0) then (Present "", true) else (Absent, false)
  end.

(** The text [fmt.Fprintf] formats in [writeToFile]. *)
Definition record_block (title currUrl : string) : string :=
  "{" +:+ String "010" (String "009" "title: ") +:+ title +:+ "," +:+
  String "010" (String "009" "url: ") +:+ currUrl +:+ String "010" "}".

(** [fmt.Fprintf(file, ...)] on the handle [OpenFile] gave: a write through
    a nil [*os.File] fails with [os.ErrInvalid] and writes nothing; the file
    was opened with [O_APPEND], so a write lands at its end. *)
Definition Fprintf (fs : fs_file) (valid : bool) (text : string) : fs_file * bool :=
  match fs, valid with
  | Present content, true => (Present (content +:+ text), true)
  | _, _ => (fs, false)
  end.

(** [func writeToFile(title string, currUrl string)] *)
Definition writeToFile (title currUrl : string) (fs : fs_file)
    (log : list log_entry) : fs_file * list log_entry :=
  let '(fs1, valid) := OpenFile fs (Z.lor O_APPEND O_WRONLY) in
  let log1 := if valid then log else log ++ [ErrorAtLine192] in
  let '(fs2, written) := Fprintf fs1 valid (record_block title currUrl) in
  let log2 := if written then log1 else log1 ++ [ErrorAtLine198] in
  (fs2, log2).

(** ** The fetcher *)

(** What the parser reads of a [*goquery.Document]: the [href] values of
    [doc.Find("a[href]")] in document order and the text of
    [doc.Find("title")]. *)
Record Document : Type := mkDocument {
  anchors : list string;
  title : string
}.

(** An HTTP response: its status code and what
    [goquery.NewDocumentFromReader] makes of its body ([None]: an error). *)
Record Response : Type := mkResponse {
  StatusCode : Z;
  Body : option Document
}.

(** The result of [client.Do(req)]. *)
Inductive do_result : Type :=
| DoError
| DoResponse (resp : Response).

(** The world one call of [fetcher] runs in: whether [http.NewRequest]
    accepts the URL, and the result of the [k]-th call of [client.Do]
    (counted from 0). *)
Record Network : Type := mkNetwork {
  newRequestOk : bool;
  Do : nat -> do_result
}.

Definition StatusOK : Z := 200.

(** What a run of [fetcher] does that can be observed from outside. *)
Inductive fetch_event : Type :=
| EvSleep (seconds : Z)
| EvDo (url : string)
| EvClose
| EvLog.

(** How a run of [fetcher] ends: a value sent on the channel ([None] is
    [nil]), or [log.Fatal], which ends the process. *)
Inductive fetch_outcome : Type :=
| Sent (doc : option Document)
| Fatal.

(** The loop [for i := range 5] of [fetcher], from the iterations still to
    run; [calls] counts the calls of [client.Do] made so far. *)
Fixpoint fetcher_loop (url : string) (net : Network) (iters : list Z)
    (calls : nat) (trace : list fetch_event) : fetch_outcome * list fetch_event :=
  match iters with
  | [] => (Sent None, trace)
  | i :: rest =>
      if negb (newRequestOk net) then
        fetcher_loop url net rest calls (trace ++ [EvLog])
      else
        let trace1 := if 0 <? i then trace ++ [EvSleep (2 * i)] else trace in
        match Do net calls with
        | DoError =>
            fetcher_loop url net rest (S calls) (trace1 ++ [EvDo url; EvLog])
        | DoResponse resp =>
            if StatusCode resp =? StatusOK then
              match Body resp with
              | Some doc => (Sent (Some doc), trace1 ++ [EvDo url; EvClose])
              | None => (Fatal, trace1 ++ [EvDo url; EvClose])
              end
            else
              fetcher_loop url net rest (S calls) (trace1 ++ [EvDo url; EvLog; EvClose])
        end
  end.

(** [func fetcher(url string, c chan *goquery.Document)] *)
Definition fetcher (url : string) (net : Network) : fetch_outcome * list fetch_event :=
  fetcher_loop url net [0; 1; 2; 3; 4] 0%nat [].

(** The number of HTTP requests in a trace. *)
Fixpoint attempts (trace : list fetch_event) : nat :=
  match trace with
  | [] => 0%nat
  | EvDo _ :: rest => S (attempts rest)
  | _ :: rest => attempts rest
  end.

(** An attempt that makes [fetcher] go on: a transport error or a status
    other than 200. *)
Definition failed (r : do_result) : Prop :=
  match r with
  | DoError => True
  | DoResponse resp => StatusCode resp <> StatusOK
  end.

(** ** The parser *)

(** Lines 193 to 201 of [parser]: what becomes of one [href] before the
    admission test; [None] where the callback returns. *)
Definition resolve (href : string) : option string :=
  if HasPrefix href "#" || HasPrefix href "javascript:" || HasPrefix href "mailto:"
  then None
  else if HasPrefix href "/" then Some (TrimSuffix host "/" +:+ href)
  else if negb (HasPrefix href "http") then None
  else Some href.

(** The admission test of line 203. *)
Definition admissible (disabledLinks : list string) (crawledSet : CrawledSet)
    (href : string) : bool :=
  HasPrefix href host && isAllowed disabledLinks href && negb (contains crawledSet href).

(** The callback of [doc.Find("a[href]").Each] on one anchor. *)
Definition parser_anchor (disabledLinks : list string) (crawledSet : CrawledSet)
    (queue : Queue) (href : string) : Queue :=
  match resolve href with
  | None => queue
  | Some href' =>
      if admissible disabledLinks crawledSet href' then enqueue href' queue
      else queue
  end.

(** [func parser(doc, queue, currUrl, crawledSet)], run without another
    goroutine in between, as [main] runs it on the seed page. *)
Definition parser (disabledLinks : list string) (doc : Document) (queue : Queue)
    (currUrl : string) (crawledSet : CrawledSet) (fs : fs_file)
    (log : list log_entry) : Queue * (fs_file * list log_entry) :=
  (fold_left (parser_anchor disabledLinks crawledSet) (anchors doc) queue,
   writeToFile (title doc) currUrl fs log).

(** What [parser_anchor] can add to the queue. *)
Definition accepted (disabledLinks : list string) (crawledSet : CrawledSet)
    (url : string) : Prop :=
  HasPrefix url host = true /\ isAllowed disabledLinks url = true /\
  contains crawledSet url = false.

(** ** The crawl loop *)

(** A parser goroutine started by the loop: the anchors it has not yet
    visited, and what it will write once it has. *)
Record Task : Type := mkTask {
  pending : list string;
  page_title : string;
  page_url : string
}.

(** The state shared by [main] and the parser goroutines, with two ghost
    fields: the URLs handed to [fetcher], oldest first, and the number of
    parser goroutines the latest loop iteration started. *)
Record Crawler : Type := mkCrawler {
  queue : Queue;
  crawled : CrawledSet;
  running : list Task;
  in_loop : bool;
  sink : fs_file;
  logbook : list log_entry;
  fetched : list string;
  dispatched : nat
}.

(** What can happen next: [main] runs one iteration of its loop, in which
    the fetch meets the given network; [main] finds the loop condition false
    and goes on to [wg.Wait()]; or the [i]-th running parser goroutine takes
    its next step. *)
Inductive event : Type :=
| Iteration (net : Network)
| Leave
| Extract (i : nat).

Inductive step_result : Type :=
| Next (s : Crawler)
| Disabled
| Exited
| Crashed (e : runtime_error).

Definition ceiling : Z := 500.

(** [queue.size() > 0 && crawled.size() < 500] *)
Definition loop_condition (s : Crawler) : bool :=
  (0 <? size_q (queue s)) && (size_c (crawled s) <? ceiling).

(** The body of the loop of [main], lines 246 to 257. *)
Definition iteration (net : Network) (s : Crawler) : step_result :=
  match dequeue (queue s) with
  | Panicked e => Crashed e
  | Returned (url, queue') =>
      let crawled' := add url (crawled s) in
      match fst (fetcher url net) with
      | Fatal => Exited
      | Sent None =>
          Next {| queue := queue'; crawled := crawled'; running := running s;
                  in_loop := true; sink := sink s; logbook := logbook s;
                  fetched := fetched s ++ [url]; dispatched := 0 |}
      | Sent (Some doc) =>
          Next {| queue := queue'; crawled := crawled';
                  running := running s ++ [mkTask (anchors doc) (title doc) url];
                  in_loop := true; sink := sink s; logbook := logbook s;
                  fetched := fetched s ++ [url]; dispatched := 1 |}
      end
  end.

(** One step of the parser goroutine [i]: the callback on its next anchor,
    or, after the last one, the write of the page record and its end. *)
Definition extract (disabledLinks : list string) (i : nat) (s : Crawler) : step_result :=
  match running s !! i with
  | None => Disabled
  | Some t =>
      match pending t with
      | href :: rest =>
          Next {| queue := parser_anchor disabledLinks (crawled s) (queue s) href;
                  crawled := crawled s;
                  running := <[i := mkTask rest (page_title t) (page_url t)]> (running s);
                  in_loop := in_loop s; sink := sink s; logbook := logbook s;
                  fetched := fetched s; dispatched := dispatched s |}
      | [] =>
          let '(fs, log) := writeToFile (page_title t) (page_url t) (sink s) (logbook s) in
          Next {| queue := queue s; crawled := crawled s;
                  running := delete i (running s);
                  in_loop := in_loop s; sink := fs; logbook := log;
                  fetched := fetched s; dispatched := dispatched s |}
      end
  end.

Definition step (disabledLinks : list string) (e : event) (s : Crawler) : step_result :=
  match e with
  | Iteration net =>
      if in_loop s && loop_condition s then iteration net s else Disabled
  | Leave =>
      if in_loop s && negb (loop_condition s) then
        Next {| queue := queue s; crawled := crawled s; running := running s;
                in_loop := false; sink := sink s; logbook := logbook s;
                fetched := fetched s; dispatched := dispatched s |}
      else Disabled
  | Extract i => extract disabledLinks i s
  end.

(** A schedule, run from a state until it ends or a step does not give a
    next state. *)
Fixpoint run (disabledLinks : list string) (es : list event) (s : Crawler) : step_result :=
  match es with
  | [] => Next s
  | e :: es' =>
      match step disabledLinks e s with
      | Next s' => run disabledLinks es' s'
      | r => r
      end
  end.

(** Lines 218 to 228 of [main]: the state in which the loop is entered.
    [disabledLinks] is what [robotsTxtFetcher] left, [net] the network the
    fetch of the seed meets, [fs] the output file at the start. *)
Definition seed (disabledLinks : list string) (net : Network) (fs : fs_file) : step_result :=
  let queue0 := new_queue in
  let crawled0 := add host new_crawled in
  match fst (fetcher host net) with
  | Fatal => Exited
  | Sent None =>
      Next {| queue := queue0; crawled := crawled0; running := [];
              in_loop := true; sink := fs; logbook := [];
              fetched := [host]; dispatched := 0 |}
  | Sent (Some content) =>
      let '(queue1, (fs1, log1)) := parser disabledLinks content queue0 host crawled0 fs [] in
      Next {| queue := queue1; crawled := crawled0; running := [];
              in_loop := true; sink := fs1; logbook := log1;
              fetched := [host]; dispatched := 0 |}
  end.

(** The whole of [main] under a schedule: the seed, then the events. *)
Definition crawl (disabledLinks : list string) (net : Network) (fs : fs_file)
    (es : list event) : step_result :=
  match seed disabledLinks net fs with
  | Next s => run disabledLinks es s
  | r => r
  end.

(** [main] has returned from [wg.Wait()]: it left the loop and no parser
    goroutine is running. *)
Definition completed (s : Crawler) : Prop :=
  in_loop s = false /\ running s = [].

(** The visited count is between 1 and the ceiling, and an iteration starts
    at most one parser goroutine. *)
Definition within_ceiling (s : Crawler) : Prop :=
  1 <= size_c (crawled s) <= ceiling /\ (dispatched s <= 1)%nat.

(** How often a URL was handed to [fetcher]. *)
Definition fetch_count (url : string) (s : Crawler) : nat :=
  length (List.filter (String.eqb url) (fetched s)).

(** ** Sequences of operations on the two containers *)

Inductive queue_op : Type :=
| Enqueue (url : string)
| Dequeue.

(** Runs the calls in order; gives the queue at the end and the URLs the
    [dequeue] calls returned, in the order of the calls. *)
Fixpoint run_queue (ops : list queue_op) (q : Queue) : go_result (Queue * list string) :=
  match ops with
  | [] => Returned (q, [])
  | Enqueue url :: ops' => run_queue ops' (enqueue url q)
  | Dequeue :: ops' =>
      match dequeue q with
      | Panicked e => Panicked e
      | Returned (url, q') =>
          match run_queue ops' q' with
          | Panicked e => Panicked e
          | Returned (q'', outs) => Returned (q'', url :: outs)
          end
      end
  end.

(** The URLs passed to [enqueue], in the order of the calls. *)
Fixpoint enqueued (ops : list queue_op) : list string :=
  match ops with
  | [] => []
  | Enqueue url :: ops' => url :: enqueued ops'
  | Dequeue :: ops' => enqueued ops'
  end.

Inductive set_op : Type :=
| Add (url : string)
| ContainsOp (url : string)
| Size.

Definition apply_set_op (c : CrawledSet) (op : set_op) : CrawledSet :=
  match op with
  | Add url => add url c
  | ContainsOp _ => c
  | Size => c
  end.

Definition run_set (ops : list set_op) (c : CrawledSet) : CrawledSet :=
  fold_left apply_set_op ops c.

(** The number of fingerprints stored in the map. *)
Definition fingerprints (c : CrawledSet) : nat := size (dom (data c)).

(** ** Two servers *)

(** A server whose first answer is a 200 with a body that
    [goquery.NewDocumentFromReader] cannot read. *)
Definition unreadable_200 : Network :=
  {| newRequestOk := true;
     Do := fun _ => DoResponse {| StatusCode := 200; Body := None |} |}.

(** A server that always answers 503. *)
Definition always_503 : Network :=
  {| newRequestOk := true;
     Do := fun _ => DoResponse {| StatusCode := 503; Body := None |} |}.

(** A server that answers 200 on the third request. *)
Definition third_time_lucky (doc : Document) : Network :=
  {| newRequestOk := true;
     Do := fun k => if (k =? 2)%nat
                    then DoResponse {| StatusCode := 200; Body := Some doc |}
                    else DoError |}.

(** A server that answers every request with 200 and the given page. *)
Definition serve (doc : Document) : Network :=
  {| newRequestOk := true;
     Do := fun _ => DoResponse {| StatusCode := 200; Body := Some doc |} |}.

(** ** A site of two pages *)

(** The home page links twice to the same page, which has no links. *)
Definition home_page : Document :=
  {| anchors := ["/a"; "/a"]; title := "home" |}.

Definition leaf_page : Document :=
  {| anchors := []; title := "a" |}.

(** The crawl of that site: two iterations, each followed by the step of
    the parser goroutine it started, and the exit from the loop. *)
Definition two_page_schedule : list event :=
  [Iteration (serve leaf_page); Extract 0; Iteration (serve leaf_page); Extract 0; Leave].

(** ** Further observations *)

(** The number of [add] calls in a sequence of calls on the visited set. *)
Fixpoint count_adds (ops : list set_op) : nat :=
  match ops with
  | [] => 0%nat
  | Add _ :: ops' => S (count_adds ops')
  | _ :: ops' => count_adds ops'
  end.

(** The URLs passed to [add] in a sequence of calls. *)
Fixpoint added (ops : list set_op) : list string :=
  match ops with
  | [] => []
  | Add url :: ops' => url :: added ops'
  | _ :: ops' => added ops'
  end.

(** The inverse of the FNV prime modulo 2^64. *)
Definition fnv_prime64_inv : Z := 14886173955864302971.

(** The number of [resp.Body.Close()] calls in a trace. *)
Fixpoint closes (trace : list fetch_event) : nat :=
  match trace with
  | [] => 0%nat
  | EvClose :: rest => S (closes rest)
  | _ :: rest => closes rest
  end.

(** The seconds of [time.Sleep] in a trace. *)
Fixpoint slept (trace : list fetch_event) : Z :=
  match trace with
  | [] => 0
  | EvSleep seconds :: rest => seconds + slept rest
  | _ :: rest => slept rest
  end.

Definition is_response (r : do_result) : bool :=
  match r with
  | DoError => false
  | DoResponse _ => true
  end.

(** How many of the calls [from], ..., [from + n - 1] of [client.Do] come
    back with a response. *)
Fixpoint responses (net : Network) (from n : nat) : nat :=
  match n with
  | O => 0%nat
  | S n' => ((if is_response (Do net from) then 1 else 0) + responses net (S from) n')%nat
  end.

(** What the callback of [parser] enqueues for one anchor, if anything. *)
Definition accepted_link (disabledLinks : list string) (crawledSet : CrawledSet)
    (href : string) : option string :=
  match resolve href with
  | None => None
  | Some href' => if admissible disabledLinks crawledSet href' then Some href' else None
  end.

(** The links of a page that pass, in document order. *)
Fixpoint accepted_links (disabledLinks : list string) (crawledSet : CrawledSet)
    (hrefs : list string) : list string :=
  match hrefs with
  | [] => []
  | href :: rest =>
      match accepted_link disabledLinks crawledSet href with
      | Some url => url :: accepted_links disabledLinks crawledSet rest
      | None => accepted_links disabledLinks crawledSet rest
      end
  end.

(** The counters of the shared state agree with what is stored and with
    what was fetched. *)
Definition counters_agree (s : Crawler) : Prop :=
  number (queue s) = wrap_int (Z.of_nat (length (elements (queue s)))) /\
  totalQueued (queue s)
    = wrap_int (Z.of_nat (length (fetched s)) - 1 + Z.of_nat (length (elements (queue s)))) /\
  size_c (crawled s) = Z.of_nat (length (fetched s)) /\
  (1 <= length (fetched s) <= 500)%nat /\
  Forall (fun url => contains (crawled s) url = true) (fetched s).

(** Nothing is left to do but to leave the loop: only the seed was fetched,
    the queue is empty and no parser goroutine runs. *)
Definition idle (s : Crawler) : Prop :=
  fetched s = [host] /\ elements (queue s) = [] /\ number (queue s) = 0 /\
  running s = [] /\ crawled s = add host new_crawled.

(** * Properties *)

(** ** Machine integers *)

Lemma wrap_int_small (z : Z) : in_int z -> wrap_int z = z.
Proof.
  unfold in_int, wrap_int. intros H.
  rewrite Z.mod_small by lia. lia.
Qed.

Lemma wrap_int_add_l (a b : Z) : wrap_int (wrap_int a + b) = wrap_int (a + b).
Proof.
  unfold wrap_int.
  replace ((a + 2 ^ 63) mod 2 ^ 64 - 2 ^ 63 + b + 2 ^ 63)
    with ((a + 2 ^ 63) mod 2 ^ 64 + b) by lia.
  rewrite Zplus_mod_idemp_l. do 2 f_equal. lia.
Qed.

(** ** Strings *)

Lemma HasPrefix_spec (s pre : string) :
  HasPrefix s pre = true <-> exists rest : string, s = pre +:+ rest.
Proof.
  unfold HasPrefix. revert pre.
  induction s as [|a s IH]; intros [|b pre]; simpl.
  - split; [exists ""; reflexivity | reflexivity].
  - split; [discriminate | intros [rest H]; discriminate].
  - split; [exists (String a s); reflexivity | reflexivity].
  - destruct (ascii_dec b a) as [->|Hne].
    + rewrite IH. split; intros [rest H]; exists rest.
      * now rewrite H.
      * now inversion H.
    + split; [discriminate | intros [rest H]; inversion H; congruence].
Qed.

Lemma Contains_spec (s substr : string) :
  Contains s substr = true <-> occurs_in substr s.
Proof.
  unfold occurs_in. induction s as [|a s IH]; cbn [Contains].
  - rewrite orb_false_r, HasPrefix_spec. split.
    + intros [rest H]. exists "", rest. exact H.
    + intros [[|b before] [after H]]; [exists after; exact H | discriminate].
  - rewrite orb_true_iff, IH, HasPrefix_spec. split.
    + intros [[rest H] | [before [after H]]].
      * exists "", rest. exact H.
      * exists (String a before), after. simpl. now rewrite H.
    + intros [[|b before] [after H]].
      * left. exists after. exact H.
      * right. exists before, after. simpl in H. now inversion H.
Qed.

(** ** The robots filter *)

Lemma isAllowed_true_iff (disabledLinks : list string) (url : string) :
  isAllowed disabledLinks url = true <->
  forall disallowed, In disallowed disabledLinks -> ~ occurs_in disallowed url.
Proof.
  induction disabledLinks as [|d rest IH]; simpl.
  - split; [intros _ x [] | reflexivity].
  - destruct (Contains url d) eqn:Hc.
    + split; [discriminate|]. intros H. exfalso.
      apply (H d); [now left | now apply Contains_spec].
    + rewrite IH. split.
      * intros H x [<-|Hin]; [|now apply H].
        rewrite <- Contains_spec, Hc. discriminate.
      * intros H x Hin. apply H. now right.
Qed.

(** C5. [isAllowed url] is true exactly when no collected disallowed path
    occurs as a substring of [url]; with the list ["/private"] the URL
    "https://site/private/x" is refused and "https://site/public/x" is
    allowed; with an empty list, which is what a failed robots.txt request
    leaves, every URL is allowed. *)
Theorem isAllowed_no_disallowed_substring :
  (forall (disabledLinks : list string) (url : string),
      isAllowed disabledLinks url = true <->
      forall disallowed, In disallowed disabledLinks -> ~ occurs_in disallowed url) /\
  isAllowed ["/private"] "https://site/private/x" = false /\
  isAllowed ["/private"] "https://site/public/x" = true /\
  (forall Fields, robotsTxtFetcher Fields None [] = []) /\
  (forall url : string, isAllowed [] url = true).
Proof.
  split; [exact isAllowed_true_iff|].
  repeat split; reflexivity.
Qed.

Lemma isAllowed_no_disallowed_substring_witness :
  (forall disallowed, In disallowed ["/private"; "/tmp"] ->
     ~ occurs_in disallowed "https://site/public/x") /\
  isAllowed ["/private"; "/tmp"] "https://site/public/x" = true.
Proof.
  assert (H : forall disallowed, In disallowed ["/private"; "/tmp"] ->
                ~ occurs_in disallowed "https://site/public/x").
  { intros d [<-|[<-|[]]]; rewrite <- Contains_spec; vm_compute; discriminate. }
  split; [exact H|].
  apply (proj1 isAllowed_no_disallowed_substring). exact H.
Defined.

(** ** The frontier *)

(** C4, the claim as stated fails: on the empty queue [dequeue] gives no
    result at all, it panics with the index-out-of-range error of the
    runtime. *)
Lemma dequeue_empty_is_a_crash :
  elements new_queue = [] /\
  is_panic (dequeue new_queue) = true /\
  dequeue new_queue = Panicked (IndexOutOfRange 0 0) /\
  ~ (exists r, dequeue new_queue = Returned r).
Proof.
  repeat split. intros [r H]. discriminate.
Qed.

(** C4, amended. [dequeue] on a queue without elements panics with the
    index-out-of-range run-time error (the function has no error result);
    on a queue with at least one element it returns the head, and leaves
    the rest as the queue, one less in [number]. *)
Theorem dequeue_panics_on_empty_else_head (q : Queue) :
  (elements q = [] -> dequeue q = Panicked (IndexOutOfRange 0 0)) /\
  (forall url rest, elements q = url :: rest ->
     dequeue q = Returned (url, {| totalQueued := totalQueued q;
                                   number := wrap_int (number q - 1);
                                   elements := rest |})).
Proof.
  unfold dequeue. split.
  - intros ->. reflexivity.
  - intros url rest ->. reflexivity.
Qed.

Lemma dequeue_panics_on_empty_else_head_witness :
  dequeue new_queue = Panicked (IndexOutOfRange 0 0) /\
  dequeue (enqueue "https://www.sjsu.edu/b" (enqueue "https://www.sjsu.edu/a" new_queue)) =
    Returned ("https://www.sjsu.edu/a",
              {| totalQueued := 2; number := 1; elements := ["https://www.sjsu.edu/b"] |}).
Proof.
  split.
  - apply (proj1 (dequeue_panics_on_empty_else_head new_queue)). reflexivity.
  - apply (proj2 (dequeue_panics_on_empty_else_head
             (enqueue "https://www.sjsu.edu/b" (enqueue "https://www.sjsu.edu/a" new_queue)))
             "https://www.sjsu.edu/a" ["https://www.sjsu.edu/b"]).
    reflexivity.
Defined.

Lemma wrap_int_range (z : Z) : in_int (wrap_int z).
Proof.
  unfold in_int, wrap_int.
  pose proof (Z.mod_pos_bound (z + 2 ^ 63) (2 ^ 64) ltac:(lia)). lia.
Qed.

Lemma enqueued_app (ops1 ops2 : list queue_op) :
  enqueued (ops1 ++ ops2) = enqueued ops1 ++ enqueued ops2.
Proof.
  induction ops1 as [|[url|] ops1 IH]; simpl; [reflexivity | now rewrite IH | exact IH].
Qed.

(** What a run of calls does to a queue, counters modulo the word size. *)
Lemma run_queue_spec (ops : list queue_op) :
  forall (q0 q : Queue) (outs : list string),
    in_int (totalQueued q0) -> in_int (number q0) ->
    run_queue ops q0 = Returned (q, outs) ->
    elements q0 ++ enqueued ops = outs ++ elements q /\
    totalQueued q = wrap_int (totalQueued q0 + Z.of_nat (length (enqueued ops))) /\
    number q =
      wrap_int (number q0 + Z.of_nat (length (enqueued ops)) - Z.of_nat (length outs)).
Proof.
  induction ops as [|[url|] ops IH]; intros q0 q outs Ht Hn Hrun; simpl in Hrun.
  - inversion Hrun; subst. simpl.
    rewrite app_nil_r, !wrap_int_small; [repeat split; lia | unfold in_int in *; lia ..].
  - apply IH in Hrun; try apply wrap_int_range.
    destruct Hrun as (He & Htq & Hnum). simpl in *.
    rewrite <- app_assoc in He. simpl in He.
    rewrite wrap_int_add_l in Htq. rewrite <- Z.add_sub_assoc, wrap_int_add_l in Hnum.
    repeat split; [exact He | rewrite Htq | rewrite Hnum]; f_equal; lia.
  - unfold dequeue in Hrun.
    destruct (elements q0) as [|u rest] eqn:Hel; [discriminate|].
    destruct (run_queue ops _) as [[q' outs']|] eqn:Hrest; [|discriminate].
    inversion Hrun; subst. clear Hrun.
    apply IH in Hrest; simpl; try apply wrap_int_range; [|exact Ht].
    destruct Hrest as (He & Htq & Hnum). simpl in *.
    rewrite <- Z.add_sub_assoc, wrap_int_add_l in Hnum.
    repeat split; [now rewrite He | exact Htq | rewrite Hnum; f_equal; lia].
Qed.

(** A run of calls that does not panic did not panic at any point. *)
Lemma run_queue_app (ops1 ops2 : list queue_op) :
  forall (q0 q : Queue) (outs : list string),
    run_queue (ops1 ++ ops2) q0 = Returned (q, outs) ->
    exists q1 outs1 outs2,
      run_queue ops1 q0 = Returned (q1, outs1) /\
      run_queue ops2 q1 = Returned (q, outs2) /\
      outs = outs1 ++ outs2.
Proof.
  induction ops1 as [|[url|] ops1 IH]; intros q0 q outs Hrun; simpl in *.
  - exists q0, [], outs. auto.
  - now apply IH.
  - destruct (dequeue q0) as [[u q']|]; [|discriminate].
    destruct (run_queue (ops1 ++ ops2) q') as [[q'' outs']|] eqn:Hrest; [|discriminate].
    inversion Hrun; subst. clear Hrun.
    apply IH in Hrest. destruct Hrest as (q1 & outs1 & outs2 & H1 & H2 & ->).
    rewrite H1. exists q1, (u :: outs1), outs2. auto.
Qed.

(** From the empty queue, below the word size. *)
Lemma run_queue_new (ops : list queue_op) (q : Queue) (outs : list string) :
  run_queue ops new_queue = Returned (q, outs) ->
  Z.of_nat (length (enqueued ops)) < 2 ^ 63 ->
  enqueued ops = outs ++ elements q /\
  totalQueued q = Z.of_nat (length (enqueued ops)) /\
  size_q q = Z.of_nat (length (elements q)).
Proof.
  intros Hrun Hbound.
  apply run_queue_spec in Hrun; [|unfold in_int; simpl; lia ..].
  destruct Hrun as (He & Htq & Hnum). simpl in *.
  assert (Hlen : length (enqueued ops) = (length outs + length (elements q))%nat)
    by (rewrite He; apply length_app).
  unfold size_q. rewrite Htq, Hnum, !wrap_int_small; unfold in_int; [|lia ..].
  repeat split; [exact He | lia ..].
Qed.

(** C7. Whatever calls of [enqueue] and [dequeue] are made on the queue of
    [main], no [dequeue] on an empty queue among them and fewer than 2^63
    calls of [enqueue]: the URLs come out in the order they went in (those
    returned so far, followed by those still in the queue, are the URLs
    enqueued, in order); [totalQueued] is the number of [enqueue] calls and
    was not larger at any earlier point; and [size()] is the number of
    elements present, at the end and at every earlier point. *)
Theorem queue_fifo_and_counters (ops : list queue_op) (q : Queue) (outs : list string) :
  run_queue ops new_queue = Returned (q, outs) ->
  Z.of_nat (length (enqueued ops)) < 2 ^ 63 ->
  enqueued ops = outs ++ elements q /\
  totalQueued q = Z.of_nat (length (enqueued ops)) /\
  size_q q = Z.of_nat (length (elements q)) /\
  forall ops1 ops2, ops = ops1 ++ ops2 ->
    exists q1 outs1,
      run_queue ops1 new_queue = Returned (q1, outs1) /\
      (exists outs2, outs = outs1 ++ outs2) /\
      totalQueued q1 = Z.of_nat (length (enqueued ops1)) /\
      totalQueued q1 <= totalQueued q /\
      size_q q1 = Z.of_nat (length (elements q1)).
Proof.
  intros Hrun Hbound.
  destruct (run_queue_new ops q outs Hrun Hbound) as (He & Htq & Hsz).
  repeat split; try assumption.
  intros ops1 ops2 ->.
  destruct (run_queue_app _ _ _ _ _ Hrun) as (q1 & outs1 & outs2 & H1 & H2 & Houts).
  rewrite enqueued_app, length_app in Hbound, Htq.
  destruct (run_queue_new ops1 q1 outs1 H1 ltac:(lia)) as (He1 & Htq1 & Hsz1).
  exists q1, outs1. repeat split; try assumption; [now exists outs2 | lia].
Qed.

Lemma queue_fifo_and_counters_witness :
  let ops := [Enqueue "https://www.sjsu.edu/a"; Enqueue "https://www.sjsu.edu/b";
              Dequeue; Enqueue "https://www.sjsu.edu/c"; Dequeue] in
  exists q outs,
    run_queue ops new_queue = Returned (q, outs) /\
    outs = ["https://www.sjsu.edu/a"; "https://www.sjsu.edu/b"] /\
    elements q = ["https://www.sjsu.edu/c"] /\
    enqueued ops = outs ++ elements q /\
    totalQueued q = 3 /\
    size_q q = 1.
Proof.
  intros ops.
  exists {| totalQueued := 3; number := 1; elements := ["https://www.sjsu.edu/c"] |},
         ["https://www.sjsu.edu/a"; "https://www.sjsu.edu/b"].
  split; [reflexivity|]. split; [reflexivity|]. split; [reflexivity|].
  destruct (queue_fifo_and_counters ops
              {| totalQueued := 3; number := 1; elements := ["https://www.sjsu.edu/c"] |}
              ["https://www.sjsu.edu/a"; "https://www.sjsu.edu/b"])
    as (He & Htq & Hsz & _); [reflexivity | simpl; lia |].
  split; [exact He|]. split; [exact Htq | exact Hsz].
Defined.

(** ** The visited set *)

Lemma contains_true_iff (c : CrawledSet) (url : string) :
  contains c url = true <-> data c !! hashUrl url = Some true.
Proof.
  unfold contains. destruct (data c !! hashUrl url) as [[|]|]; simpl; split; congruence.
Qed.

Lemma contains_add_fingerprint (c : CrawledSet) (u v : string) :
  hashUrl v = hashUrl u -> contains (add u c) v = true.
Proof.
  intros H. apply contains_true_iff. simpl. rewrite H. apply lookup_insert_eq.
Qed.

(** No operation takes a stored fingerprint away. *)
Lemma apply_set_op_keeps (c : CrawledSet) (op : set_op) (h : Z) :
  data c !! h = Some true -> data (apply_set_op c op) !! h = Some true.
Proof.
  intros H. destruct op as [w| |]; simpl; try exact H.
  destruct (decide (hashUrl w = h)) as [->|Hne].
  - apply lookup_insert_eq.
  - now rewrite lookup_insert_ne.
Qed.

Lemma run_set_keeps (ops : list set_op) (c : CrawledSet) (h : Z) :
  data c !! h = Some true -> data (run_set ops c) !! h = Some true.
Proof.
  revert c. induction ops as [|op ops IH]; intros c H; simpl; [exact H|].
  apply IH, apply_set_op_keeps, H.
Qed.

(** C8. [contains(u)] is true right after [add(u)] and stays true whatever
    calls of [add], [contains] and [size] follow; no stored fingerprint is
    ever removed; and membership is a matter of the FNV-1a fingerprint
    alone: two URLs with the same fingerprint get the same answer, so a URL
    whose fingerprint is that of an added URL is reported as contained. *)
Theorem contains_after_add_forever (c : CrawledSet) (u : string) (ops : list set_op) :
  contains (add u c) u = true /\
  contains (run_set ops (add u c)) u = true /\
  (forall h : Z, data c !! h = Some true -> data (run_set ops c) !! h = Some true) /\
  (forall v w : string, hashUrl v = hashUrl w -> contains c v = contains c w) /\
  (forall v : string, hashUrl v = hashUrl u ->
     contains (add u c) v = true /\ contains (run_set ops (add u c)) v = true).
Proof.
  assert (Hv : forall v, hashUrl v = hashUrl u ->
             contains (add u c) v = true /\ contains (run_set ops (add u c)) v = true).
  { intros v Hh. split; [now apply contains_add_fingerprint|].
    apply contains_true_iff, run_set_keeps, contains_true_iff.
    now apply contains_add_fingerprint. }
  split; [now apply Hv|]. split; [now apply Hv|].
  split; [intros h; apply run_set_keeps|].
  split; [|exact Hv].
  intros v w Hh. unfold contains. now rewrite Hh.
Qed.

Lemma contains_after_add_forever_witness :
  hashUrl host = hashUrl "https://www.sjsu.edu/" /\
  contains (run_set [Add "https://www.sjsu.edu/a"; ContainsOp host; Size;
                     Add "https://www.sjsu.edu/b"] (add "https://www.sjsu.edu/" new_crawled))
           host = true.
Proof.
  split; [reflexivity|].
  apply (contains_after_add_forever new_crawled "https://www.sjsu.edu/"
           [Add "https://www.sjsu.edu/a"; ContainsOp host; Size; Add "https://www.sjsu.edu/b"]).
  reflexivity.
Defined.

Lemma add_add_data (c : CrawledSet) (u v : string) :
  hashUrl u = hashUrl v -> data (add v (add u c)) = data (add u c).
Proof.
  intros H. simpl. rewrite H. apply insert_insert_eq.
Qed.

Lemma add_add_size (c : CrawledSet) (u v : string) :
  in_int (size_c c) -> size_c c + 2 < 2 ^ 63 ->
  size_c (add v (add u c)) = size_c c + 2.
Proof.
  unfold size_c, in_int. intros Hr Hb. simpl.
  rewrite wrap_int_add_l, wrap_int_small; unfold in_int; lia.
Qed.

(** C9. [add] counts every call.  Two calls of [add] with the same URL, or
    with two URLs of the same fingerprint, raise [size()] by 2 (below the
    word size) and leave the map as it was after the first call; so
    [size()] can be larger than the number of fingerprints stored: after
    [add(host)] twice on the new set it is 2, with one fingerprint. *)
Theorem add_counts_every_call :
  (forall (c : CrawledSet) (u v : string),
      hashUrl u = hashUrl v ->
      in_int (size_c c) -> size_c c + 2 < 2 ^ 63 ->
      size_c (add v (add u c)) = size_c c + 2 /\
      data (add v (add u c)) = data (add u c) /\
      fingerprints (add v (add u c)) = fingerprints (add u c)) /\
  (forall (c : CrawledSet) (u : string),
      in_int (size_c c) -> size_c c + 2 < 2 ^ 63 ->
      size_c (add u (add u c)) = size_c c + 2 /\
      data (add u (add u c)) = data (add u c)) /\
  size_c (add host (add host new_crawled)) = 2 /\
  fingerprints (add host (add host new_crawled)) = 1%nat.
Proof.
  split; [|split; [|split]].
  - intros c u v Hh Hr Hb. split; [now apply add_add_size|].
    unfold fingerprints. rewrite (add_add_data c u v Hh). auto.
  - intros c u Hr Hb. split; [now apply add_add_size | now apply add_add_data].
  - reflexivity.
  - unfold fingerprints. rewrite add_add_data by reflexivity.
    simpl. rewrite insert_empty, dom_singleton_L. apply size_singleton.
Qed.

Lemma add_counts_every_call_witness :
  let c := add host new_crawled in
  let u := "https://www.sjsu.edu/a" in
  size_c c = 1 /\ size_c (add u (add u c)) = 3 /\
  fingerprints (add u (add u c)) = fingerprints (add u c).
Proof.
  intros c u.
  destruct (proj1 add_counts_every_call c u u) as (Hs & _ & Hf);
    [reflexivity | change (size_c c) with 1; unfold in_int; lia
    | change (size_c c) with 1; lia |].
  split; [reflexivity|]. split; [exact Hs | exact Hf].
Defined.

(** ** The output file *)

Example record_block_example :
  record_block "SJSU" "https://www.sjsu.edu/" =
  "{
	title: SJSU,
	url: https://www.sjsu.edu/
}".
Proof. reflexivity. Qed.

(** ** The fetcher *)

Lemma attempts_app (t1 t2 : list fetch_event) :
  attempts (t1 ++ t2) = (attempts t1 + attempts t2)%nat.
Proof.
  induction t1 as [|[s|u| |] t1 IH]; simpl; lia.
Qed.

Lemma attempts_sleep (trace : list fetch_event) (i : Z) :
  attempts (if 0 <? i then trace ++ [EvSleep (2 * i)] else trace) = attempts trace.
Proof.
  destruct (0 <? i); [rewrite attempts_app; simpl; lia | reflexivity].
Qed.

Section FetcherLoop.

Variable url : string.
Variable net : Network.

(** Each iteration makes at most one request. *)
Lemma fetcher_loop_attempts_le (iters : list Z) :
  forall (calls : nat) (trace : list fetch_event),
    (attempts (snd (fetcher_loop url net iters calls trace))
     <= attempts trace + length iters)%nat.
Proof.
  induction iters as [|i rest IH]; intros calls trace; simpl; [lia|].
  destruct (newRequestOk net); simpl.
  - destruct (Do net calls) as [|resp].
    + etransitivity; [apply IH|]. rewrite attempts_app, attempts_sleep. simpl. lia.
    + destruct (StatusCode resp =? StatusOK).
      * destruct (Body resp); simpl; rewrite attempts_app, attempts_sleep; simpl; lia.
      * etransitivity; [apply IH|]. rewrite attempts_app, attempts_sleep. simpl. lia.
  - etransitivity; [apply IH|]. rewrite attempts_app. simpl. lia.
Qed.

(** A URL that [http.NewRequest] refuses is never requested. *)
Lemma fetcher_loop_no_request (iters : list Z) :
  newRequestOk net = false ->
  forall (calls : nat) (trace : list fetch_event),
    fst (fetcher_loop url net iters calls trace) = Sent None /\
    attempts (snd (fetcher_loop url net iters calls trace)) = attempts trace.
Proof.
  intros Hreq. induction iters as [|i rest IH]; intros calls trace; simpl; [auto|].
  rewrite Hreq. simpl. destruct (IH calls (trace ++ [EvLog])) as [-> ->].
  rewrite attempts_app. simpl. split; [reflexivity | lia].
Qed.

Hypothesis request_ok : newRequestOk net = true.

(** Failed attempts only: every iteration requests, [nil] is sent. *)
Lemma fetcher_loop_all_failed (iters : list Z) :
  forall (calls : nat) (trace : list fetch_event),
    (forall j : nat, (calls <= j < calls + length iters)%nat -> failed (Do net j)) ->
    fst (fetcher_loop url net iters calls trace) = Sent None /\
    attempts (snd (fetcher_loop url net iters calls trace))
      = (attempts trace + length iters)%nat.
Proof.
  induction iters as [|i rest IH]; intros calls trace Hfail; simpl.
  - split; [reflexivity | lia].
  - rewrite request_ok. simpl.
    pose proof (Hfail calls ltac:(simpl; lia)) as Hc.
    destruct (Do net calls) as [|resp]; simpl in Hc.
    + destruct (IH (S calls) ((if 0 <? i then trace ++ [EvSleep (2 * i)] else trace)
                                ++ [EvDo url; EvLog])) as [-> ->].
      { intros j Hj. apply Hfail. simpl. lia. }
      rewrite attempts_app, attempts_sleep. simpl. split; [reflexivity | lia].
    + destruct (Z.eqb_spec (StatusCode resp) StatusOK) as [Heq|_]; [contradiction|].
      destruct (IH (S calls) ((if 0 <? i then trace ++ [EvSleep (2 * i)] else trace)
                                ++ [EvDo url; EvLog; EvClose])) as [-> ->].
      { intros j Hj. apply Hfail. simpl. lia. }
      rewrite attempts_app, attempts_sleep. simpl. split; [reflexivity | lia].
Qed.

(** The first 200 after [k] failed attempts ends the loop: its document is
    sent when the body parses, the process ends when it does not. *)
Lemma fetcher_loop_first_ok (iters : list Z) :
  forall (k calls : nat) (trace : list fetch_event) (resp : Response),
    (k < length iters)%nat ->
    (forall j : nat, (calls <= j < calls + k)%nat -> failed (Do net j)) ->
    Do net (calls + k)%nat = DoResponse resp ->
    StatusCode resp = StatusOK ->
    fst (fetcher_loop url net iters calls trace)
      = match Body resp with Some doc => Sent (Some doc) | None => Fatal end /\
    attempts (snd (fetcher_loop url net iters calls trace))
      = (attempts trace + k + 1)%nat.
Proof.
  induction iters as [|i rest IH]; intros k calls trace resp Hk Hfail Hdo Hst;
    simpl in *; [lia|].
  rewrite request_ok. simpl. destruct k as [|k].
  - rewrite Nat.add_0_r in Hdo. rewrite Hdo, Hst, Z.eqb_refl.
    destruct (Body resp); simpl; rewrite attempts_app, attempts_sleep; simpl;
      (split; [reflexivity | lia]).
  - pose proof (Hfail calls ltac:(lia)) as Hc.
    assert (Hfail' : forall j : nat, (S calls <= j < S calls + k)%nat -> failed (Do net j))
      by (intros j Hj; apply Hfail; lia).
    assert (Hdo' : Do net (S calls + k)%nat = DoResponse resp)
      by (rewrite <- Hdo; f_equal; lia).
    destruct (Do net calls) as [|r]; simpl in Hc.
    + destruct (IH k (S calls) ((if 0 <? i then trace ++ [EvSleep (2 * i)] else trace)
                                  ++ [EvDo url; EvLog]) resp
                  ltac:(lia) Hfail' Hdo' Hst) as [-> ->].
      rewrite attempts_app, attempts_sleep. simpl. split; [reflexivity | lia].
    + destruct (Z.eqb_spec (StatusCode r) StatusOK) as [Heq|_]; [contradiction|].
      destruct (IH k (S calls) ((if 0 <? i then trace ++ [EvSleep (2 * i)] else trace)
                                  ++ [EvDo url; EvLog; EvClose]) resp
                  ltac:(lia) Hfail' Hdo' Hst) as [-> ->].
      rewrite attempts_app, attempts_sleep. simpl. split; [reflexivity | lia].
Qed.

End FetcherLoop.

(** C2, the claim as stated fails: the first attempt gets a 200, the body
    does not parse, and [fetcher] sends nothing, neither a document nor
    [nil]: it ends the process in [log.Fatal] after that one request. *)
Lemma fetcher_first_200_unparsed_sends_nothing :
  newRequestOk unreadable_200 = true /\
  (exists resp, Do unreadable_200 0 = DoResponse resp /\ StatusCode resp = StatusOK) /\
  fst (fetcher host unreadable_200) = Fatal /\
  (forall doc : option Document, fst (fetcher host unreadable_200) <> Sent doc) /\
  attempts (snd (fetcher host unreadable_200)) = 1%nat.
Proof.
  split; [reflexivity|]. split; [eexists; split; reflexivity|].
  split; [reflexivity|]. split; [intros doc; discriminate | reflexivity].
Qed.

(** C2, amended. [fetcher] makes at most 5 HTTP requests.  When the first
    [k] attempts fail (transport error or a status other than 200) and
    attempt [k+1], among the five, answers 200: with a body that parses, the
    document is sent and exactly [k+1] requests were made; with a body that
    does not parse, the process ends in [log.Fatal] after those [k+1]
    requests and nothing is sent.  When all five attempts fail, [nil] is
    sent, after exactly five requests; the run ends with a value on the
    channel, not with an error. *)
Theorem fetcher_bounded_retries (url : string) (net : Network) :
  (attempts (snd (fetcher url net)) <= 5)%nat /\
  (forall (k : nat) (resp : Response) (doc : Document),
      newRequestOk net = true ->
      (k < 5)%nat ->
      (forall j : nat, (j < k)%nat -> failed (Do net j)) ->
      Do net k = DoResponse resp ->
      StatusCode resp = StatusOK ->
      Body resp = Some doc ->
      fst (fetcher url net) = Sent (Some doc) /\
      attempts (snd (fetcher url net)) = (k + 1)%nat) /\
  (forall (k : nat) (resp : Response),
      newRequestOk net = true ->
      (k < 5)%nat ->
      (forall j : nat, (j < k)%nat -> failed (Do net j)) ->
      Do net k = DoResponse resp ->
      StatusCode resp = StatusOK ->
      Body resp = None ->
      fst (fetcher url net) = Fatal /\
      attempts (snd (fetcher url net)) = (k + 1)%nat) /\
  ((forall j : nat, (j < 5)%nat -> failed (Do net j)) ->
   fst (fetcher url net) = Sent None /\
   (newRequestOk net = true -> attempts (snd (fetcher url net)) = 5%nat)).
Proof.
  unfold fetcher. split; [|split; [|split]].
  - apply (fetcher_loop_attempts_le url net [0; 1; 2; 3; 4] 0 []).
  - intros k resp doc Hreq Hk Hfail Hdo Hst Hbody.
    destruct (fetcher_loop_first_ok url net Hreq [0; 1; 2; 3; 4] k 0 [] resp)
      as [Hout Hn];
      [simpl; lia | intros j Hj; apply Hfail; lia | exact Hdo | exact Hst |].
    rewrite Hout, Hbody, Hn. auto.
  - intros k resp Hreq Hk Hfail Hdo Hst Hbody.
    destruct (fetcher_loop_first_ok url net Hreq [0; 1; 2; 3; 4] k 0 [] resp)
      as [Hout Hn];
      [simpl; lia | intros j Hj; apply Hfail; lia | exact Hdo | exact Hst |].
    rewrite Hout, Hbody, Hn. auto.
  - intros Hfail. destruct (newRequestOk net) eqn:Hreq.
    + destruct (fetcher_loop_all_failed url net Hreq [0; 1; 2; 3; 4] 0 []) as [Hout Hn].
      * intros j Hj. apply Hfail. simpl in Hj. lia.
      * rewrite Hout, Hn. auto.
    + destruct (fetcher_loop_no_request url net [0; 1; 2; 3; 4] Hreq 0%nat []) as [Hout _].
      rewrite Hout. split; [reflexivity | discriminate].
Qed.

(** The one way out that sends nothing: a 200 whose body does not parse
    ends the process in [log.Fatal], after the request that got it. *)
Lemma fetcher_fatal_on_unparsed_body (url : string) (net : Network) (k : nat)
    (resp : Response) :
  newRequestOk net = true ->
  (k < 5)%nat ->
  (forall j : nat, (j < k)%nat -> failed (Do net j)) ->
  Do net k = DoResponse resp ->
  StatusCode resp = StatusOK ->
  Body resp = None ->
  fst (fetcher url net) = Fatal /\ attempts (snd (fetcher url net)) = (k + 1)%nat.
Proof.
  intros Hreq Hk Hfail Hdo Hst Hbody. unfold fetcher.
  destruct (fetcher_loop_first_ok url net Hreq [0; 1; 2; 3; 4] k 0 [] resp)
    as [Hout Hn];
    [simpl; lia | intros j Hj; apply Hfail; lia | exact Hdo | exact Hst |].
  rewrite Hout, Hbody, Hn. auto.
Qed.

Lemma fetcher_bounded_retries_witness :
  let doc := {| anchors := ["/a"]; title := "t" |} in
  (fst (fetcher host always_503) = Sent None /\
   attempts (snd (fetcher host always_503)) = 5%nat) /\
  (fst (fetcher host (third_time_lucky doc)) = Sent (Some doc) /\
   attempts (snd (fetcher host (third_time_lucky doc))) = 3%nat) /\
  (fst (fetcher host unreadable_200) = Fatal /\
   attempts (snd (fetcher host unreadable_200)) = 1%nat).
Proof.
  intros doc. split; [|split].
  - destruct (proj2 (proj2 (proj2 (fetcher_bounded_retries host always_503))))
      as [Hout Hn].
    + intros j _. simpl. unfold StatusOK. lia.
    + split; [exact Hout | apply Hn; reflexivity].
  - apply (proj1 (proj2 (fetcher_bounded_retries host (third_time_lucky doc))) 2%nat
             {| StatusCode := 200; Body := Some doc |} doc); try reflexivity.
    + lia.
    + intros [|[|j]] Hj; simpl; [exact I | exact I | lia].
  - apply (proj1 (proj2 (proj2 (fetcher_bounded_retries host unreadable_200))) 0%nat
             {| StatusCode := 200; Body := None |}); try reflexivity.
    + lia.
    + intros j Hj. lia.
Defined.

(** ** The parser *)

Lemma rooted_is_not_rejected (href : string) :
  HasPrefix href "/" = true ->
  HasPrefix href "#" || HasPrefix href "javascript:" || HasPrefix href "mailto:" = false.
Proof.
  intros H. apply HasPrefix_spec in H. destruct H as [rest ->]. reflexivity.
Qed.

(** A URL under [host] starts with none of the rejected prefixes. *)
Lemma under_host_not_rejected (url : string) :
  HasPrefix url host = true ->
  HasPrefix url "#" = false /\ HasPrefix url "javascript:" = false /\
  HasPrefix url "mailto:" = false.
Proof.
  intros H. apply HasPrefix_spec in H. destruct H as [rest ->]. repeat split.
Qed.

Lemma admissible_accepted (disabledLinks : list string) (crawledSet : CrawledSet)
    (url : string) :
  admissible disabledLinks crawledSet url = true <-> accepted disabledLinks crawledSet url.
Proof.
  unfold admissible, accepted.
  rewrite !andb_true_iff, negb_true_iff. tauto.
Qed.

Lemma parser_anchor_cases (disabledLinks : list string) (crawledSet : CrawledSet)
    (queue : Queue) (href : string) :
  parser_anchor disabledLinks crawledSet queue href = queue \/
  exists url, parser_anchor disabledLinks crawledSet queue href = enqueue url queue /\
              resolve href = Some url /\
              accepted disabledLinks crawledSet url.
Proof.
  unfold parser_anchor. destruct (resolve href) as [url|]; [|now left].
  destruct (admissible disabledLinks crawledSet url) eqn:Ha; [|now left].
  right. exists url. split; [reflexivity|]. split; [reflexivity|].
  now apply admissible_accepted.
Qed.

(** The links one run of the parser adds all pass the admission test. *)
Lemma parser_adds_accepted (disabledLinks : list string) (crawledSet : CrawledSet)
    (hrefs : list string) :
  forall queue : Queue,
  exists new : list string,
    elements (fold_left (parser_anchor disabledLinks crawledSet) hrefs queue)
      = elements queue ++ new /\
    Forall (accepted disabledLinks crawledSet) new.
Proof.
  induction hrefs as [|href hrefs IH]; intros queue; simpl.
  - exists []. rewrite app_nil_r. auto.
  - destruct (IH (parser_anchor disabledLinks crawledSet queue href)) as (new & He & Hall).
    destruct (parser_anchor_cases disabledLinks crawledSet queue href)
      as [Hq | (url & Hq & _ & Hacc)].
    + exists new. split; [rewrite He, Hq; reflexivity | exact Hall].
    + exists (url :: new). split; [|now constructor].
      rewrite He, Hq. simpl. now rewrite <- app_assoc.
Qed.

(** C3. For every anchor: an [href] that starts with "#", "javascript:" or
    "mailto:" leaves the queue as it is; an [href] that starts with "/" is
    tested as the host without its final slash followed by the [href]; any
    other [href] that does not start with "http" leaves the queue as it is;
    and whatever the [href], the queue is either unchanged or has got one URL
    that starts with [host], satisfies [isAllowed], was not in the visited
    set at the test, and starts with none of the three rejected prefixes.
    So a whole run of the parser only adds URLs under [host]. *)
Theorem parser_enqueues_only_accepted_links
    (disabledLinks : list string) (crawledSet : CrawledSet) (queue : Queue) (href : string) :
  (HasPrefix href "#" = true \/ HasPrefix href "javascript:" = true \/
   HasPrefix href "mailto:" = true ->
   parser_anchor disabledLinks crawledSet queue href = queue) /\
  (HasPrefix href "/" = true ->
   resolve href = Some ("https://www.sjsu.edu" +:+ href) /\
   parser_anchor disabledLinks crawledSet queue href =
     if admissible disabledLinks crawledSet (TrimSuffix host "/" +:+ href)
     then enqueue (TrimSuffix host "/" +:+ href) queue else queue) /\
  (HasPrefix href "/" = false -> HasPrefix href "http" = false ->
   parser_anchor disabledLinks crawledSet queue href = queue) /\
  (parser_anchor disabledLinks crawledSet queue href = queue \/
   exists url,
     parser_anchor disabledLinks crawledSet queue href = enqueue url queue /\
     HasPrefix url host = true /\ isAllowed disabledLinks url = true /\
     contains crawledSet url = false /\
     HasPrefix url "#" = false /\ HasPrefix url "javascript:" = false /\
     HasPrefix url "mailto:" = false) /\
  (forall (doc : Document) (currUrl : string) (fs : fs_file) (log : list log_entry),
   exists new : list string,
     elements (fst (parser disabledLinks doc queue currUrl crawledSet fs log))
       = elements queue ++ new /\
     Forall (fun url => HasPrefix url host = true /\ isAllowed disabledLinks url = true /\
                        contains crawledSet url = false) new).
Proof.
  split; [|split; [|split; [|split]]].
  - intros H. unfold parser_anchor, resolve.
    replace (HasPrefix href "#" || HasPrefix href "javascript:" || HasPrefix href "mailto:")
      with true; [reflexivity|].
    symmetry. rewrite !orb_true_iff. tauto.
  - intros H. unfold parser_anchor, resolve.
    rewrite (rooted_is_not_rejected href H), H. auto.
  - intros H1 H2. unfold parser_anchor, resolve. rewrite H1, H2.
    destruct (_ || _); reflexivity.
  - destruct (parser_anchor_cases disabledLinks crawledSet queue href)
      as [Hq | (url & Hq & _ & Hp & Ha & Hc)]; [now left|].
    right. exists url. pose proof (under_host_not_rejected url Hp). tauto.
  - intros doc currUrl fs log. unfold parser. simpl.
    apply parser_adds_accepted.
Qed.

Lemma parser_enqueues_only_accepted_links_witness :
  parser_anchor ["/private"] (add host new_crawled) new_queue "#top" = new_queue /\
  parser_anchor ["/private"] (add host new_crawled) new_queue "mailto:x@y.com" = new_queue /\
  parser_anchor ["/private"] (add host new_crawled) new_queue "http://other.test/z" = new_queue /\
  parser_anchor ["/private"] (add host new_crawled) new_queue "about.html" = new_queue /\
  parser_anchor ["/private"] (add host new_crawled) new_queue "/private/x" = new_queue /\
  parser_anchor ["/private"] (add host new_crawled) new_queue "/a" =
    enqueue "https://www.sjsu.edu/a" new_queue.
Proof.
  pose proof (parser_enqueues_only_accepted_links ["/private"] (add host new_crawled)
                new_queue) as P.
  split.
  { destruct (P "#top") as (H & _). apply H. left. reflexivity. }
  split.
  { destruct (P "mailto:x@y.com") as (H & _). apply H. right. right. reflexivity. }
  split; [reflexivity|].
  split.
  { destruct (P "about.html") as (_ & _ & H & _). apply H; reflexivity. }
  split; [reflexivity|].
  destruct (P "/a") as (_ & H & _).
  destruct (H eq_refl) as [_ ->]. reflexivity.
Defined.

(** ** The output file *)

Lemma writeToFile_absent (title currUrl : string) (log : list log_entry) :
  writeToFile title currUrl Absent log = (Absent, log ++ [ErrorAtLine192; ErrorAtLine198]).
Proof.
  unfold writeToFile. simpl. now rewrite <- app_assoc.
Qed.


(** ** The crawl loop *)

(** A property that the seed establishes and every step keeps holds in
    every state of every schedule. *)
Lemma run_invariant (disabledLinks : list string) (P : Crawler -> Prop) :
  (forall e s s', P s -> step disabledLinks e s = Next s' -> P s') ->
  forall es s s', P s -> run disabledLinks es s = Next s' -> P s'.
Proof.
  intros Hstep. induction es as [|e es IH]; intros s s' HP Hrun; simpl in Hrun.
  - now inversion Hrun; subst.
  - destruct (step disabledLinks e s) as [s1| | |] eqn:He; try discriminate.
    eapply IH; [|exact Hrun]. eapply Hstep; eauto.
Qed.

Lemma crawl_invariant (disabledLinks : list string) (net : Network) (fs : fs_file)
    (P : Crawler -> Prop) :
  (forall s, seed disabledLinks net fs = Next s -> P s) ->
  (forall e s s', P s -> step disabledLinks e s = Next s' -> P s') ->
  forall es s, crawl disabledLinks net fs es = Next s -> P s.
Proof.
  intros Hseed Hstep es s. unfold crawl.
  destruct (seed disabledLinks net fs) as [s0| | |] eqn:Hs; try discriminate.
  apply run_invariant; auto.
Qed.

(** What an iteration of the loop changes. *)
Lemma iteration_next (net : Network) (s s' : Crawler) :
  iteration net s = Next s' ->
  exists url queue',
    dequeue (queue s) = Returned (url, queue') /\
    queue s' = queue' /\
    crawled s' = add url (crawled s) /\
    fetched s' = fetched s ++ [url] /\
    in_loop s' = true /\ sink s' = sink s /\ logbook s' = logbook s /\
    ((fst (fetcher url net) = Sent None /\ running s' = running s /\ dispatched s' = 0%nat) \/
     (exists doc, fst (fetcher url net) = Sent (Some doc) /\
                  running s' = running s ++ [mkTask (anchors doc) (title doc) url] /\
                  dispatched s' = 1%nat)).
Proof.
  unfold iteration. intros H.
  destruct (dequeue (queue s)) as [[url queue']|]; [|discriminate].
  exists url, queue'.
  destruct (fst (fetcher url net)) as [[doc|]|] eqn:Hf; inversion H; subst; clear H; simpl.
  - repeat (split; [reflexivity|]). right. exists doc. auto.
  - repeat (split; [reflexivity|]). left. auto.
Qed.

(** What a step of a parser goroutine changes. *)
Lemma extract_next (disabledLinks : list string) (i : nat) (s s' : Crawler) :
  extract disabledLinks i s = Next s' ->
  crawled s' = crawled s /\ fetched s' = fetched s /\ in_loop s' = in_loop s /\
  dispatched s' = dispatched s /\
  exists t, running s !! i = Some t /\
    ((exists href rest, pending t = href :: rest /\
        queue s' = parser_anchor disabledLinks (crawled s) (queue s) href /\
        running s' = <[i := mkTask rest (page_title t) (page_url t)]> (running s) /\
        sink s' = sink s /\ logbook s' = logbook s) \/
     (pending t = [] /\ queue s' = queue s /\ running s' = delete i (running s) /\
      (sink s', logbook s') = writeToFile (page_title t) (page_url t) (sink s) (logbook s))).
Proof.
  unfold extract. destruct (running s !! i) as [t|]; [|discriminate].
  destruct (pending t) as [|href rest] eqn:Hp.
  - destruct (writeToFile _ _ _ _) as [fs log] eqn:Hw.
    intros H; inversion H; subst; clear H; simpl. repeat split; auto.
    exists t. split; [reflexivity|]. right. auto.
  - intros H; inversion H; subst; clear H; simpl. repeat split; auto.
    exists t. split; [reflexivity|]. left. exists href, rest. auto.
Qed.

Lemma step_sink_absent (disabledLinks : list string) (e : event) (s s' : Crawler) :
  sink s = Absent -> step disabledLinks e s = Next s' -> sink s' = Absent.
Proof.
  intros Ha. destruct e as [net| |i]; simpl.
  - destruct (_ && _); [|discriminate]. intros H.
    apply iteration_next in H. destruct H as (u & q & _ & _ & _ & _ & _ & Hs & _). congruence.
  - destruct (_ && _); [|discriminate]. intros H. inversion H; subst. exact Ha.
  - intros H. apply extract_next in H.
    destruct H as (_ & _ & _ & _ & t & _ & [(h & r & _ & _ & _ & Hs & _) | (_ & _ & _ & Hw)]).
    + congruence.
    + rewrite Ha, writeToFile_absent in Hw. now inversion Hw.
Qed.

Lemma seed_sink_absent (disabledLinks : list string) (net : Network) (s : Crawler) :
  seed disabledLinks net Absent = Next s -> sink s = Absent.
Proof.
  unfold seed. destruct (fst (fetcher host net)) as [[doc|]|]; try discriminate.
  - unfold parser. rewrite writeToFile_absent. intros H. now inversion H.
  - intros H. now inversion H.
Qed.

(** C10. [writeToFile] opens the file with [O_APPEND|O_WRONLY], in which
    the [O_CREATE] bit is not set.  When result.txt is missing, the call
    writes nothing, logs the two errors and returns; the file is still
    missing at every point of every crawl that started without it, and the
    parser goroutine whose write failed ends like any other, leaving queue
    and visited set to the loop.  When the file is there, the call appends
    the block and nothing else to it, so that two records follow each other
    with nothing in between. *)
Theorem writeToFile_never_creates_the_sink :
  Z.land (Z.lor O_APPEND O_WRONLY) O_CREATE = 0 /\
  (forall (title currUrl : string) (log : list log_entry),
      writeToFile title currUrl Absent log
        = (Absent, log ++ [ErrorAtLine192; ErrorAtLine198])) /\
  (forall (disabledLinks : list string) (net : Network) (es : list event) (s : Crawler),
      crawl disabledLinks net Absent es = Next s -> sink s = Absent) /\
  (forall (disabledLinks : list string) (i : nat) (s : Crawler) (t : Task),
      running s !! i = Some t -> pending t = [] ->
      exists s', extract disabledLinks i s = Next s' /\
                 queue s' = queue s /\ crawled s' = crawled s /\
                 in_loop s' = in_loop s /\ running s' = delete i (running s)) /\
  (forall (title currUrl content : string) (log : list log_entry),
      writeToFile title currUrl (Present content) log
        = (Present (content +:+ "{" +:+ String "010" (String "009" "title: ") +:+ title
                    +:+ "," +:+ String "010" (String "009" "url: ") +:+ currUrl
                    +:+ String "010" "}"), log)) /\
  (forall (t1 u1 t2 u2 content : string) (log : list log_entry),
      writeToFile t2 u2 (fst (writeToFile t1 u1 (Present content) log)) log
        = (Present ((content +:+ record_block t1 u1) +:+ record_block t2 u2), log)).
Proof.
  split; [reflexivity|]. split; [exact writeToFile_absent|]. split; [|split; [|split]].
  - intros disabledLinks net es s.
    apply (crawl_invariant disabledLinks net Absent (fun s => sink s = Absent)).
    + apply seed_sink_absent.
    + intros e s0 s1. apply step_sink_absent.
  - intros disabledLinks i s t Hi Hp. unfold extract. rewrite Hi, Hp.
    destruct (writeToFile _ _ _ _) as [fs log]. eexists. split; [reflexivity|]. simpl. auto.
  - reflexivity.
  - reflexivity.
Qed.

Lemma writeToFile_never_creates_the_sink_witness :
  exists s,
    crawl [] (serve home_page) Absent two_page_schedule = Next s /\
    sink s = Absent /\
    logbook s = [ErrorAtLine192; ErrorAtLine198; ErrorAtLine192; ErrorAtLine198;
                 ErrorAtLine192; ErrorAtLine198].
Proof.
  destruct (crawl [] (serve home_page) Absent two_page_schedule) as [s| | |] eqn:Hc;
    try (vm_compute in Hc; discriminate).
  exists s. split; [reflexivity|]. split.
  - apply (proj1 (proj2 (proj2 writeToFile_never_creates_the_sink))
             [] (serve home_page) two_page_schedule s Hc).
  - vm_compute in Hc. now inversion Hc.
Defined.

Lemma seed_within_ceiling (disabledLinks : list string) (net : Network) (fs : fs_file)
    (s : Crawler) :
  seed disabledLinks net fs = Next s -> within_ceiling s.
Proof.
  unfold seed. destruct (fst (fetcher host net)) as [[doc|]|]; try discriminate.
  - destruct (parser _ _ _ _ _ _ _) as [q [fs1 log1]].
    intros H; inversion H; subst. unfold within_ceiling, ceiling. simpl.
    change (wrap_int (0 + 1)) with 1. lia.
  - intros H; inversion H; subst. unfold within_ceiling, ceiling. simpl.
    change (wrap_int (0 + 1)) with 1. lia.
Qed.

Lemma loop_condition_true (s : Crawler) :
  loop_condition s = true <-> 0 < size_q (queue s) /\ size_c (crawled s) < ceiling.
Proof.
  unfold loop_condition. rewrite andb_true_iff, !Z.ltb_lt. tauto.
Qed.

Lemma step_within_ceiling (disabledLinks : list string) (e : event) (s s' : Crawler) :
  within_ceiling s -> step disabledLinks e s = Next s' -> within_ceiling s'.
Proof.
  unfold within_ceiling. intros [Hc Hd]. destruct e as [net| |i]; simpl.
  - destruct (in_loop s); simpl; [|discriminate].
    destruct (loop_condition s) eqn:Hl; [|discriminate].
    apply loop_condition_true in Hl. destruct Hl as [_ Hl]. intros H.
    apply iteration_next in H.
    destruct H as (u & q & _ & _ & Hcr & _ & _ & _ & _ & Hrun).
    rewrite Hcr. unfold size_c in *. simpl.
    rewrite wrap_int_small by (unfold in_int, ceiling in *; lia).
    split; [lia|]. destruct Hrun as [(_ & _ & ->) | (doc & _ & _ & ->)]; lia.
  - destruct (_ && _); [|discriminate]. intros H. inversion H; subst. simpl. auto.
  - intros H. apply extract_next in H. destruct H as (-> & _ & _ & -> & _). auto.
Qed.

(** C6. In every state a crawl can reach: an iteration of the loop runs
    only from a state in which the queue size is positive and the visited
    count is below 500; the visited count is at most 500; hence, when the
    crawl has completed, the visited count exceeds 500 by no more than the
    number of parser goroutines the last iteration started. *)
Theorem visited_count_within_ceiling
    (disabledLinks : list string) (net : Network) (fs : fs_file)
    (es : list event) (s : Crawler) :
  crawl disabledLinks net fs es = Next s ->
  (forall (net' : Network) (s' : Crawler),
      step disabledLinks (Iteration net') s = Next s' ->
      0 < size_q (queue s) /\ size_c (crawled s) < 500) /\
  size_c (crawled s) <= 500 /\
  (completed s -> size_c (crawled s) - 500 <= Z.of_nat (dispatched s)).
Proof.
  intros Hc.
  assert (Hin : within_ceiling s).
  { revert Hc. apply crawl_invariant.
    - apply seed_within_ceiling.
    - apply step_within_ceiling. }
  destruct Hin as [Hn Hd]. unfold ceiling in Hn. split; [|split; [lia|intros _; lia]].
  intros net' s'. simpl. destruct (in_loop s); simpl; [|discriminate].
  destruct (loop_condition s) eqn:Hl; [|discriminate].
  intros _. now apply loop_condition_true in Hl.
Qed.

Lemma visited_count_within_ceiling_witness :
  exists s,
    crawl [] (serve home_page) (Present "") two_page_schedule = Next s /\
    completed s /\ size_c (crawled s) = 3 /\ dispatched s = 1%nat /\
    size_c (crawled s) - 500 <= Z.of_nat (dispatched s).
Proof.
  destruct (crawl [] (serve home_page) (Present "") two_page_schedule) as [s| | |] eqn:Hc;
    try (vm_compute in Hc; discriminate).
  exists s. split; [reflexivity|].
  pose proof (visited_count_within_ceiling [] (serve home_page) (Present "")
                two_page_schedule s Hc) as (_ & _ & Hdone).
  assert (Hs : completed s /\ size_c (crawled s) = 3 /\ dispatched s = 1%nat).
  { vm_compute in Hc. inversion Hc. repeat split. }
  destruct Hs as (Hcomp & Hsz & Hd).
  repeat split; try assumption; try apply Hcomp. apply Hdone, Hcomp.
Defined.

(** C1, on the site of two pages: the home page links twice to
    "https://www.sjsu.edu/a"; the parser enqueues the link twice, since the
    URL is not in the visited set at either test, and the loop hands it to
    [fetcher] twice, the second time after it was marked visited. *)
Theorem link_found_twice_is_fetched_twice :
  exists s,
    crawl [] (serve home_page) (Present "") two_page_schedule = Next s /\
    completed s /\
    fetched s = ["https://www.sjsu.edu/"; "https://www.sjsu.edu/a"; "https://www.sjsu.edu/a"] /\
    fetch_count "https://www.sjsu.edu/a" s = 2%nat /\
    sink s = Present (record_block "home" "https://www.sjsu.edu/" +:+
                      record_block "a" "https://www.sjsu.edu/a" +:+
                      record_block "a" "https://www.sjsu.edu/a").
Proof.
  eexists. split; [vm_compute; reflexivity|].
  repeat split.
Qed.

(** Domain containment along a crawl: whatever the pages and the schedule,
    every URL waiting in the queue and every URL handed to [fetcher] starts
    with [host]. *)
Lemma crawl_stays_in_domain (disabledLinks : list string) (net : Network) (fs : fs_file)
    (es : list event) (s : Crawler) :
  crawl disabledLinks net fs es = Next s ->
  Forall (fun url => HasPrefix url host = true) (elements (queue s)) /\
  Forall (fun url => HasPrefix url host = true) (fetched s).
Proof.
  apply (crawl_invariant disabledLinks net fs
           (fun s => Forall (fun url => HasPrefix url host = true) (elements (queue s)) /\
                     Forall (fun url => HasPrefix url host = true) (fetched s))).
  - clear s. intros s. unfold seed.
    destruct (fst (fetcher host net)) as [[doc|]|]; try discriminate.
    + destruct (parser_adds_accepted disabledLinks (add host new_crawled) (anchors doc)
                  new_queue) as (new & He & Hall).
      unfold parser. destruct (writeToFile _ _ _ _) as [fs1 log1].
      intros H; inversion H; subst; clear H. simpl. rewrite He. simpl. split.
      * eapply Forall_impl; [exact Hall|]. now intros u (Hp & _).
      * repeat constructor.
    + intros H; inversion H; subst; clear H. simpl. repeat constructor.
  - clear s. intros e s s' [Hq Hf]. destruct e as [net'| |i]; simpl.
    + destruct (_ && _); [|discriminate]. intros H. apply iteration_next in H.
      destruct H as (u & q & Hd & -> & _ & -> & _).
      unfold dequeue in Hd. destruct (elements (queue s)) as [|u' rest] eqn:Hel; [discriminate|].
      inversion Hd; subst; clear Hd. simpl. inversion Hq; subst.
      split; [assumption|]. apply Forall_app. auto.
    + destruct (_ && _); [|discriminate]. intros H. inversion H; subst. simpl. auto.
    + intros H. apply extract_next in H.
      destruct H as (_ & -> & _ & _ & t & _ & [(h & r & _ & -> & _) | (_ & -> & _)]);
        [|auto].
      split; [|assumption].
      destruct (parser_anchor_cases disabledLinks (crawled s) (queue s) h)
        as [-> | (u & -> & _ & Hp & _)]; [assumption|].
      simpl. apply Forall_app. auto.
Qed.

Lemma parser_anchor_appends (disabledLinks : list string) (crawledSet : CrawledSet)
    (queue : Queue) (href : string) :
  exists new : list string,
    elements (parser_anchor disabledLinks crawledSet queue href) = elements queue ++ new.
Proof.
  destruct (parser_anchor_cases disabledLinks crawledSet queue href)
    as [-> | (url & -> & _)].
  - exists []. now rewrite app_nil_r.
  - now exists [url].
Qed.

(** On the site of two pages the second fetch of the same URL is no matter
    of scheduling: whatever the servers answer later and however the parser
    goroutines are interleaved with the loop, the log of fetched URLs is a
    prefix of host, a, a or goes on from there. *)
Lemma second_fetch_repeats_the_first (fs : fs_file) (es : list event) (s : Crawler) :
  crawl [] (serve home_page) fs es = Next s ->
  fetched s = [host] \/
  fetched s = [host; "https://www.sjsu.edu/a"] \/
  exists more : list string,
    fetched s = host :: "https://www.sjsu.edu/a" :: "https://www.sjsu.edu/a" :: more.
Proof.
  set (a := "https://www.sjsu.edu/a").
  intros Hc.
  cut ((fetched s = [host] /\ exists rest, elements (queue s) = a :: a :: rest) \/
       (fetched s = [host; a] /\ exists rest, elements (queue s) = a :: rest) \/
       (exists more, fetched s = host :: a :: a :: more)).
  { intros [[H _] | [[H _] | H]]; auto. }
  revert Hc.
  apply (crawl_invariant [] (serve home_page) fs
           (fun s => (fetched s = [host] /\ exists rest, elements (queue s) = a :: a :: rest) \/
                     (fetched s = [host; a] /\ exists rest, elements (queue s) = a :: rest) \/
                     (exists more, fetched s = host :: a :: a :: more))); clear s.
  - intros s Hs. left.
    assert (H : fetched s = [host] /\ elements (queue s) = [a; a])
      by (destruct fs; vm_compute in Hs; inversion Hs; split; reflexivity).
    destruct H as [Hf Hq]. split; [exact Hf | now exists []].
  - intros e s s' HP. destruct e as [net| |i]; simpl.
    + destruct (_ && _); [|discriminate]. intros H. apply iteration_next in H.
      destruct H as (u & q & Hd & -> & _ & -> & _). unfold dequeue in Hd.
      destruct HP as [[-> [rest Hq]] | [[-> [rest Hq]] | [more ->]]].
      * rewrite Hq in Hd. inversion Hd; subst. simpl.
        right. left. split; [reflexivity | now exists rest].
      * rewrite Hq in Hd. inversion Hd; subst. simpl.
        right. right. now exists [].
      * right. right. now exists (more ++ [u]).
    + destruct (_ && _); [|discriminate]. intros H. inversion H; subst. exact HP.
    + intros H. apply extract_next in H.
      destruct H as (_ & -> & _ & _ & t & _ & [(h & r & _ & -> & _) | (_ & -> & _)]);
        [|exact HP].
      destruct (parser_anchor_appends [] (crawled s) (queue s) h) as [new ->].
      destruct HP as [[Hf [rest ->]] | [[Hf [rest ->]] | Hm]].
      * left. split; [exact Hf | now exists (rest ++ new)].
      * right. left. split; [exact Hf | now exists (rest ++ new)].
      * right. right. exact Hm.
Qed.

(** ** Test vectors of FNV-1a, 64 bits *)

Example hashUrl_empty : hashUrl "" = 0xcbf29ce484222325.
Proof. reflexivity. Qed.

Example hashUrl_a : hashUrl "a" = 0xaf63dc4c8601ec8c.
Proof. reflexivity. Qed.

Example hashUrl_foobar : hashUrl "foobar" = 0x85944171f73967e8.
Proof. reflexivity. Qed.

(** * Further properties of the code *)

(** ** The frontier *)

Lemma wrap_int_0 : wrap_int 0 = 0.
Proof. reflexivity. Qed.

Lemma wrap_int_succ_pred (z : Z) : wrap_int (wrap_int (z + 1) - 1) = wrap_int z.
Proof.
  replace (wrap_int (z + 1) - 1) with (wrap_int (z + 1) + -1) by lia.
  rewrite wrap_int_add_l. f_equal. lia.
Qed.

Lemma wrap_int_pred_succ (z : Z) : wrap_int (wrap_int (z - 1) + 1) = wrap_int z.
Proof.
  rewrite wrap_int_add_l. f_equal. lia.
Qed.

(** From the empty queue, [number] is the length of the slice, as an
    [int]. *)
Lemma run_queue_number (ops : list queue_op) (q : Queue) (outs : list string) :
  run_queue ops new_queue = Returned (q, outs) ->
  number q = wrap_int (Z.of_nat (length (elements q))).
Proof.
  intros Hrun.
  apply run_queue_spec in Hrun; [|unfold in_int; simpl; lia ..].
  destruct Hrun as (He & _ & Hnum). simpl in *.
  assert (Hlen : length (enqueued ops) = (length outs + length (elements q))%nat)
    by (rewrite He; apply length_app).
  rewrite Hnum. f_equal. lia.
Qed.

(** The test [size() > 0] of the loop protects [dequeue]: on every queue
    that calls of [enqueue] and [dequeue] make of the empty one, an empty
    slice has size 0, and a positive size means [dequeue] returns the head
    and does not panic. *)
Theorem positive_size_makes_dequeue_safe
    (ops : list queue_op) (q : Queue) (outs : list string) :
  run_queue ops new_queue = Returned (q, outs) ->
  (elements q = [] -> size_q q = 0) /\
  (0 < size_q q ->
   exists url rest q',
     elements q = url :: rest /\ dequeue q = Returned (url, q') /\ elements q' = rest).
Proof.
  intros Hrun. apply run_queue_number in Hrun. unfold size_q, dequeue. split.
  - intros He. rewrite Hrun, He. reflexivity.
  - intros Hpos. destruct (elements q) as [|url rest].
    + rewrite Hrun in Hpos. change (wrap_int (Z.of_nat (length []))) with 0 in Hpos. lia.
    + eexists url, rest, _. repeat split.
Qed.

Lemma positive_size_makes_dequeue_safe_witness :
  exists q',
    dequeue (enqueue "https://www.sjsu.edu/b" (enqueue "https://www.sjsu.edu/a" new_queue))
      = Returned ("https://www.sjsu.edu/a", q') /\
    elements q' = ["https://www.sjsu.edu/b"].
Proof.
  destruct (positive_size_makes_dequeue_safe
              [Enqueue "https://www.sjsu.edu/a"; Enqueue "https://www.sjsu.edu/b"]
              (enqueue "https://www.sjsu.edu/b" (enqueue "https://www.sjsu.edu/a" new_queue))
              [] eq_refl) as [_ H].
  destruct (H ltac:(vm_compute; reflexivity)) as (url & rest & q' & He & Hd & Hq).
  simpl in He. inversion He; subst. exists q'. split; [exact Hd | congruence].
Defined.

(** [enqueue] and [dequeue] commute on a queue that is not empty: a URL
    enqueued before the head is taken or after it gives the same head and
    the same queue.  On an empty slice the URL enqueued is the one dequeued,
    and the slice is empty again with [totalQueued] one higher. *)
Theorem enqueue_dequeue_commute (q : Queue) (url : string) :
  (forall head q1, dequeue q = Returned (head, q1) ->
     dequeue (enqueue url q) = Returned (head, enqueue url q1)) /\
  (elements q = [] ->
     dequeue (enqueue url q)
       = Returned (url, {| totalQueued := wrap_int (totalQueued q + 1);
                           number := wrap_int (number q);
                           elements := [] |})).
Proof.
  unfold dequeue, enqueue. split.
  - intros head q1 Hd. destruct (elements q) as [|h rest]; [discriminate|].
    inversion Hd; subst; clear Hd. simpl.
    now rewrite wrap_int_succ_pred, wrap_int_pred_succ.
  - intros ->. simpl. now rewrite wrap_int_succ_pred.
Qed.

Lemma enqueue_dequeue_commute_witness :
  dequeue (enqueue "https://www.sjsu.edu/b" (enqueue "https://www.sjsu.edu/a" new_queue))
    = Returned ("https://www.sjsu.edu/a",
                enqueue "https://www.sjsu.edu/b"
                  {| totalQueued := 1; number := 0; elements := [] |}) /\
  dequeue (enqueue "https://www.sjsu.edu/a" new_queue)
    = Returned ("https://www.sjsu.edu/a", {| totalQueued := 1; number := 0; elements := [] |}).
Proof.
  split.
  - apply (proj1 (enqueue_dequeue_commute (enqueue "https://www.sjsu.edu/a" new_queue)
                    "https://www.sjsu.edu/b")).
    reflexivity.
  - apply (proj2 (enqueue_dequeue_commute new_queue "https://www.sjsu.edu/a")).
    reflexivity.
Defined.

(** ** The visited set *)

Lemma contains_add_iff (c : CrawledSet) (u v : string) :
  contains (add u c) v = true <-> hashUrl u = hashUrl v \/ contains c v = true.
Proof.
  rewrite !contains_true_iff. simpl.
  destruct (decide (hashUrl u = hashUrl v)) as [Heq|Hne].
  - rewrite Heq, lookup_insert_eq. tauto.
  - rewrite lookup_insert_ne by exact Hne. tauto.
Qed.

Lemma contains_run_set_iff (ops : list set_op) :
  forall (c : CrawledSet) (v : string),
    contains (run_set ops c) v = true <->
    contains c v = true \/ exists u, In u (added ops) /\ hashUrl u = hashUrl v.
Proof.
  induction ops as [|[u|u|] ops IH]; intros c v; simpl.
  - split; [auto | intros [H | (u & [] & _)]; exact H].
  - unfold run_set in IH. rewrite IH, contains_add_iff. split.
    + intros [[H | H] | (w & Hin & Hw)]; eauto.
    + intros [H | (w & [<- | Hin] & Hw)]; eauto.
  - apply IH.
  - apply IH.
Qed.

(** The visited set answers for fingerprints and for nothing else: after
    any calls on the new set, [contains(v)] is true exactly when some URL
    passed to [add] has the fingerprint of [v]; in particular the new set
    contains no URL, and [add(u)] changes the answer for no URL of another
    fingerprint. *)
Theorem contains_exactly_the_added_fingerprints :
  (forall v : string, contains new_crawled v = false) /\
  (forall (ops : list set_op) (v : string),
      contains (run_set ops new_crawled) v = true <->
      exists u, In u (added ops) /\ hashUrl u = hashUrl v) /\
  (forall (c : CrawledSet) (u v : string),
      hashUrl u <> hashUrl v -> contains (add u c) v = contains c v).
Proof.
  split; [reflexivity|]. split.
  - intros ops v. rewrite contains_run_set_iff. split; [|auto].
    intros [H | H]; [discriminate | exact H].
  - intros c u v Hne. unfold contains. simpl. now rewrite lookup_insert_ne.
Qed.

Lemma fingerprints_add (c : CrawledSet) (u : string) :
  (fingerprints (add u c) <= S (fingerprints c))%nat.
Proof.
  unfold fingerprints. simpl. rewrite !size_dom, map_size_insert.
  destruct (data c !! hashUrl u); simpl; lia.
Qed.

Lemma run_set_counts (ops : list set_op) :
  forall c : CrawledSet,
    in_int (size_c c) ->
    size_c (run_set ops c) = wrap_int (size_c c + Z.of_nat (count_adds ops)) /\
    (fingerprints (run_set ops c) <= fingerprints c + count_adds ops)%nat.
Proof.
  induction ops as [|[u|u|] ops IH]; intros c Hc; simpl.
  - rewrite Z.add_0_r, wrap_int_small by exact Hc. split; [reflexivity | lia].
  - destruct (IH (add u c)) as [Hs Hf]; [apply wrap_int_range|].
    unfold run_set in *. rewrite Hs. unfold size_c. simpl. rewrite wrap_int_add_l.
    split; [f_equal; lia|]. pose proof (fingerprints_add c u). lia.
  - apply IH, Hc.
  - apply IH, Hc.
Qed.

(** On the set of [main], below the word size, [size()] is the number of
    [add] calls made, whatever other calls came in between, and the number
    of fingerprints stored is never above it. *)
Theorem size_counts_add_calls (ops : list set_op) :
  Z.of_nat (count_adds ops) < 2 ^ 63 ->
  size_c (run_set ops new_crawled) = Z.of_nat (count_adds ops) /\
  Z.of_nat (fingerprints (run_set ops new_crawled)) <= size_c (run_set ops new_crawled).
Proof.
  intros Hb.
  destruct (run_set_counts ops new_crawled) as [Hs Hf]; [unfold in_int; simpl; lia|].
  change (size_c new_crawled) with 0 in Hs.
  change (fingerprints new_crawled) with 0%nat in Hf.
  rewrite Hs, wrap_int_small by (unfold in_int; lia). lia.
Qed.

Lemma size_counts_add_calls_witness :
  size_c (run_set [Add host; ContainsOp host; Add "https://www.sjsu.edu/a"; Size; Add host]
            new_crawled) = 3.
Proof.
  apply (size_counts_add_calls
           [Add host; ContainsOp host; Add "https://www.sjsu.edu/a"; Size; Add host]).
  simpl. lia.
Defined.

(** ** The fingerprint *)

Lemma wrap_u64_range (z : Z) : 0 <= wrap_u64 z < 2 ^ 64.
Proof. unfold wrap_u64. apply Z.mod_pos_bound. lia. Qed.

Lemma byte_of_range (a : ascii) : 0 <= byte_of a < 256.
Proof.
  unfold byte_of. pose proof (N_ascii_bounded a). lia.
Qed.

Lemma byte_of_inj (a b : ascii) : byte_of a = byte_of b -> a = b.
Proof.
  unfold byte_of. intros H. apply N2Z.inj in H.
  rewrite <- (ascii_N_embedding a), <- (ascii_N_embedding b). now rewrite H.
Qed.

Lemma lxor_u64 (h b : Z) :
  0 <= h < 2 ^ 64 -> 0 <= b < 256 -> 0 <= Z.lxor h b < 2 ^ 64.
Proof.
  intros Hh Hb.
  assert (Hn : 0 <= Z.lxor h b) by (apply Z.lxor_nonneg; lia).
  split; [exact Hn|].
  destruct (Z.eq_dec (Z.lxor h b) 0) as [->|Hz]; [lia|].
  apply Z.log2_lt_pow2; [lia|].
  pose proof (Z.log2_lxor h b ltac:(lia) ltac:(lia)) as Hl.
  assert (Z.log2 h < 64).
  { destruct (Z.eq_dec h 0) as [->|]; [simpl; lia|]. apply Z.log2_lt_pow2; lia. }
  assert (Z.log2 b < 64).
  { destruct (Z.eq_dec b 0) as [->|]; [simpl; lia|].
    apply Z.log2_lt_pow2; [lia|]. lia. }
  lia.
Qed.

Lemma lxor_cancel_r (x y b : Z) : Z.lxor x b = Z.lxor y b -> x = y.
Proof.
  intros H.
  assert (H' : Z.lxor (Z.lxor x b) b = Z.lxor (Z.lxor y b) b) by now rewrite H.
  now rewrite !Z.lxor_assoc, Z.lxor_nilpotent, !Z.lxor_0_r in H'.
Qed.

Lemma lxor_cancel_l (h x y : Z) : Z.lxor h x = Z.lxor h y -> x = y.
Proof.
  rewrite (Z.lxor_comm h x), (Z.lxor_comm h y). apply lxor_cancel_r.
Qed.

(** Multiplying by the FNV prime loses nothing modulo 2^64. *)
Lemma mul_prime_inj (x y : Z) :
  0 <= x < 2 ^ 64 -> 0 <= y < 2 ^ 64 ->
  wrap_u64 (x * fnv_prime64) = wrap_u64 (y * fnv_prime64) -> x = y.
Proof.
  unfold wrap_u64. intros Hx Hy H.
  assert (Hinv : forall z, 0 <= z < 2 ^ 64 ->
            ((z * fnv_prime64) mod 2 ^ 64 * fnv_prime64_inv) mod 2 ^ 64 = z).
  { intros z Hz. rewrite Z.mul_mod_idemp_l by lia.
    rewrite <- Z.mul_assoc, <- Z.mul_mod_idemp_r by lia.
    change ((fnv_prime64 * fnv_prime64_inv) mod 2 ^ 64) with 1.
    rewrite Z.mul_1_r. apply Z.mod_small. exact Hz. }
  rewrite <- (Hinv x Hx), <- (Hinv y Hy). now rewrite H.
Qed.

Lemma fnv1a_step_range (h : Z) (a : ascii) : 0 <= fnv1a_step h a < 2 ^ 64.
Proof. apply wrap_u64_range. Qed.

Lemma fnv1a_range (s : string) :
  forall h, 0 <= h < 2 ^ 64 -> 0 <= fnv1a h s < 2 ^ 64.
Proof.
  induction s as [|a s IH]; intros h Hh; simpl; [exact Hh|].
  apply IH, fnv1a_step_range.
Qed.

Lemma fnv1a_step_inj_state (h1 h2 : Z) (a : ascii) :
  0 <= h1 < 2 ^ 64 -> 0 <= h2 < 2 ^ 64 ->
  fnv1a_step h1 a = fnv1a_step h2 a -> h1 = h2.
Proof.
  unfold fnv1a_step. intros H1 H2 H.
  apply mul_prime_inj in H; try (apply lxor_u64; [assumption | apply byte_of_range]).
  now apply lxor_cancel_r in H.
Qed.

Lemma fnv1a_step_inj_byte (h : Z) (a b : ascii) :
  0 <= h < 2 ^ 64 -> fnv1a_step h a = fnv1a_step h b -> a = b.
Proof.
  unfold fnv1a_step. intros Hh H.
  apply mul_prime_inj in H; try (apply lxor_u64; [assumption | apply byte_of_range]).
  apply lxor_cancel_l in H. now apply byte_of_inj.
Qed.

Lemma fnv1a_inj_state (s : string) :
  forall h1 h2, 0 <= h1 < 2 ^ 64 -> 0 <= h2 < 2 ^ 64 ->
    fnv1a h1 s = fnv1a h2 s -> h1 = h2.
Proof.
  induction s as [|a s IH]; intros h1 h2 H1 H2 H; simpl in H; [exact H|].
  apply IH in H; try apply fnv1a_step_range.
  now apply fnv1a_step_inj_state in H.
Qed.

Lemma fnv1a_app (s1 s2 : string) :
  forall h, fnv1a h (s1 +:+ s2) = fnv1a (fnv1a h s1) s2.
Proof.
  induction s1 as [|a s1 IH]; intros h; simpl; [reflexivity | apply IH].
Qed.

Lemma hashUrl_range (url : string) : 0 <= hashUrl url < 2 ^ 64.
Proof.
  apply fnv1a_range. unfold fnv_offset64. lia.
Qed.

(** Appending the same bytes to two URLs neither makes nor removes a
    collision of their fingerprints. *)
Theorem hashUrl_common_suffix (u v suffix : string) :
  hashUrl (u +:+ suffix) = hashUrl (v +:+ suffix) <-> hashUrl u = hashUrl v.
Proof.
  unfold hashUrl. rewrite !fnv1a_app. split.
  - apply fnv1a_inj_state; apply hashUrl_range.
  - now intros ->.
Qed.

Lemma fnv1a_one_byte_apart (before after : string) (a b : ascii) :
  hashUrl (before +:+ String a after) = hashUrl (before +:+ String b after) -> a = b.
Proof.
  unfold hashUrl. rewrite !fnv1a_app. simpl. intros H.
  apply fnv1a_inj_state in H; try apply fnv1a_step_range.
  apply fnv1a_step_inj_byte in H; [exact H | apply hashUrl_range].
Qed.

(** Two URLs that differ in one byte only never have the same
    fingerprint. *)
Theorem hashUrl_one_byte_apart (before after : string) (a b : ascii) :
  a <> b ->
  hashUrl (before +:+ String a after) <> hashUrl (before +:+ String b after).
Proof.
  intros Hne H. apply Hne. exact (fnv1a_one_byte_apart before after a b H).
Qed.

Lemma hashUrl_one_byte_apart_witness :
  hashUrl "https://www.sjsu.edu/a?x" <> hashUrl "https://www.sjsu.edu/b?x".
Proof.
  apply (hashUrl_one_byte_apart "https://www.sjsu.edu/" "?x" "a" "b").
  discriminate.
Defined.

(** ** The robots filter *)

Lemma string_app_assoc (s1 s2 s3 : string) :
  (s1 +:+ s2) +:+ s3 = s1 +:+ (s2 +:+ s3).
Proof.
  induction s1 as [|a s1 IH]; [reflexivity|].
  change (String a ((s1 +:+ s2) +:+ s3) = String a (s1 +:+ (s2 +:+ s3))).
  now rewrite IH.
Qed.

Section RobotsFacts.

Variable Fields : string -> list string.

(** What a scanned line can add: the second field of a line that contains
    "Disallow:". *)
Lemma scan_line_cases (disabledLinks : list string) (line : string) :
  scan_line Fields disabledLinks line = disabledLinks \/
  exists first path rest,
    Contains line "Disallow:" = true /\ Fields line = first :: path :: rest /\
    scan_line Fields disabledLinks line = disabledLinks ++ [path].
Proof.
  unfold scan_line. destruct (Contains line "Disallow:"); [|now left].
  destruct (Fields line) as [|first [|path rest]]; [now left | now left |].
  right. exists first, path, rest. auto.
Qed.

Lemma scan_lines_append (lines : list string) :
  forall disabledLinks : list string,
  exists new : list string,
    fold_left (scan_line Fields) lines disabledLinks = disabledLinks ++ new /\
    (length new <= length lines)%nat /\
    Forall (fun path => exists line first rest,
                In line lines /\ Contains line "Disallow:" = true /\
                Fields line = first :: path :: rest) new.
Proof.
  induction lines as [|line lines IH]; intros disabledLinks; simpl.
  - exists []. rewrite app_nil_r. split; [reflexivity|]. split; [simpl; lia | constructor].
  - destruct (IH (scan_line Fields disabledLinks line)) as (new & He & Hlen & Hall).
    assert (Hall' : Forall (fun path => exists l first rest,
                (line = l \/ In l lines) /\ Contains l "Disallow:" = true /\
                Fields l = first :: path :: rest) new).
    { eapply Forall_impl; [exact Hall|]. intros p (l & f & r & Hin & Hc & Hf).
      exists l, f, r. auto. }
    destruct (scan_line_cases disabledLinks line)
      as [Hs | (first & path & rest & Hc & Hf & Hs)].
    + exists new. split; [now rewrite He, Hs|]. split; [lia | exact Hall'].
    + exists (path :: new).
      split; [now rewrite He, Hs, <- app_assoc|]. split; [simpl; lia|].
      constructor; [|exact Hall']. exists line, first, rest. auto.
Qed.

(** [robotsTxtFetcher] only ever appends to the disallow list: what was
    there stays, in place; a failed request adds nothing; otherwise at most
    one entry per scanned line comes on, and each new entry is the second
    field of a scanned line that contains "Disallow:". *)
Theorem robotsTxtFetcher_only_appends (resp : option (list string))
    (disabledLinks : list string) :
  exists new : list string,
    robotsTxtFetcher Fields resp disabledLinks = disabledLinks ++ new /\
    match resp with
    | None => new = []
    | Some lines =>
        (length new <= length lines)%nat /\
        Forall (fun path => exists line first rest,
                    In line lines /\ Contains line "Disallow:" = true /\
                    Fields line = first :: path :: rest) new
    end.
Proof.
  destruct resp as [lines|]; simpl.
  - destruct (scan_lines_append lines disabledLinks) as (new & He & Hlen & Hall).
    exists new. auto.
  - exists []. now rewrite app_nil_r.
Qed.

End RobotsFacts.

Lemma isAllowed_app (l1 l2 : list string) (url : string) :
  isAllowed (l1 ++ l2) url = isAllowed l1 url && isAllowed l2 url.
Proof.
  induction l1 as [|d l1 IH]; simpl; [reflexivity|].
  destruct (Contains url d); [reflexivity | exact IH].
Qed.

(** Loading robots.txt can only restrict the crawl: a URL allowed after the
    load was allowed before it, and a URL refused before stays refused. *)
Theorem robots_only_restricts (Fields : string -> list string)
    (resp : option (list string)) (disabledLinks : list string) (url : string) :
  isAllowed (robotsTxtFetcher Fields resp disabledLinks) url = true ->
  isAllowed disabledLinks url = true.
Proof.
  destruct resp as [lines|]; simpl; [|auto].
  destruct (scan_lines_append Fields lines disabledLinks) as (new & -> & _).
  rewrite isAllowed_app, andb_true_iff. tauto.
Qed.

Lemma robots_only_restricts_witness :
  isAllowed (robotsTxtFetcher (fun _ => ["Disallow:"; "/private"])
               (Some ["User-agent: *"; "Disallow: /private"]) ["/tmp"])
            "https://www.sjsu.edu/a" = true /\
  isAllowed ["/tmp"] "https://www.sjsu.edu/a" = true.
Proof.
  split; [reflexivity|].
  apply (robots_only_restricts (fun _ => ["Disallow:"; "/private"])
           (Some ["User-agent: *"; "Disallow: /private"]) ["/tmp"] "https://www.sjsu.edu/a").
  reflexivity.
Defined.

(** ** The fetcher *)

Lemma closes_app (t1 t2 : list fetch_event) :
  closes (t1 ++ t2) = (closes t1 + closes t2)%nat.
Proof.
  induction t1 as [|[s|u| |] t1 IH]; simpl; lia.
Qed.

Lemma slept_app (t1 t2 : list fetch_event) :
  slept (t1 ++ t2) = slept t1 + slept t2.
Proof.
  induction t1 as [|[s|u| |] t1 IH]; simpl; lia.
Qed.

Lemma closes_sleep (trace : list fetch_event) (i : Z) :
  closes (if 0 <? i then trace ++ [EvSleep (2 * i)] else trace) = closes trace.
Proof.
  destruct (0 <? i); [rewrite closes_app; simpl; lia | reflexivity].
Qed.

Lemma slept_sleep (trace : list fetch_event) (i : Z) :
  0 <= i ->
  slept (if 0 <? i then trace ++ [EvSleep (2 * i)] else trace) = slept trace + 2 * i.
Proof.
  intros Hi. destruct (Z.ltb_spec 0 i); [rewrite slept_app; simpl; lia | lia].
Qed.

(** Requests and closed bodies of the loop, from any point of it. *)
Lemma fetcher_loop_closes (url : string) (net : Network) (iters : list Z) :
  forall (calls : nat) (trace : list fetch_event),
  exists n : nat,
    attempts (snd (fetcher_loop url net iters calls trace)) = (attempts trace + n)%nat /\
    closes (snd (fetcher_loop url net iters calls trace))
      = (closes trace + responses net calls n)%nat.
Proof.
  induction iters as [|i rest IH]; intros calls trace; simpl.
  - exists 0%nat. simpl. lia.
  - destruct (newRequestOk net); simpl.
    + destruct (Do net calls) as [|resp] eqn:Hdo.
      * destruct (IH (S calls) ((if 0 <? i then trace ++ [EvSleep (2 * i)] else trace)
                                  ++ [EvDo url; EvLog])) as (n & Ha & Hc).
        exists (S n). rewrite Ha, Hc, attempts_app, closes_app, attempts_sleep, closes_sleep.
        simpl. rewrite Hdo. simpl. lia.
      * destruct (StatusCode resp =? StatusOK).
        -- exists 1%nat.
           destruct (Body resp); simpl;
             rewrite attempts_app, closes_app, attempts_sleep, closes_sleep;
             simpl; rewrite Hdo; simpl; lia.
        -- destruct (IH (S calls) ((if 0 <? i then trace ++ [EvSleep (2 * i)] else trace)
                                     ++ [EvDo url; EvLog; EvClose])) as (n & Ha & Hc).
           exists (S n).
           rewrite Ha, Hc, attempts_app, closes_app, attempts_sleep, closes_sleep.
           simpl. rewrite Hdo. simpl. lia.
    + destruct (IH calls (trace ++ [EvLog])) as (n & Ha & Hc).
      exists n. rewrite Ha, Hc, attempts_app, closes_app. simpl. lia.
Qed.

(** [fetcher] closes the body of every response it receives, once, on
    every path (a 200, a 200 whose body does not parse, any other status),
    and closes nothing when the request fails: the number of
    [resp.Body.Close()] calls is the number of responses among the requests
    made. *)
Theorem fetcher_closes_every_response (url : string) (net : Network) :
  closes (snd (fetcher url net)) = responses net 0 (attempts (snd (fetcher url net))).
Proof.
  unfold fetcher.
  destruct (fetcher_loop_closes url net [0; 1; 2; 3; 4] 0%nat []) as (n & Ha & Hc).
  rewrite Ha, Hc. reflexivity.
Qed.

(** Requests and sleeps of the loop while the iteration index is the number
    of requests made. *)
Lemma fetcher_loop_slept (url : string) (net : Network) (m : nat) :
  newRequestOk net = true ->
  forall (calls : nat) (trace : list fetch_event),
  exists n : nat,
    attempts (snd (fetcher_loop url net (map Z.of_nat (seq calls m)) calls trace))
      = (attempts trace + n)%nat /\
    slept (snd (fetcher_loop url net (map Z.of_nat (seq calls m)) calls trace))
      = slept trace
        + (Z.of_nat calls + Z.of_nat n) * (Z.of_nat calls + Z.of_nat n - 1)
        - Z.of_nat calls * (Z.of_nat calls - 1).
Proof.
  intros Hreq. induction m as [|m IH]; intros calls trace; simpl.
  - exists 0%nat. split; [lia | nia].
  - rewrite Hreq. simpl.
    pose proof (slept_sleep trace (Z.of_nat calls) ltac:(lia)) as Hs.
    destruct (Do net calls) as [|resp].
    + destruct (IH (S calls) ((if 0 <? Z.of_nat calls
                               then trace ++ [EvSleep (2 * Z.of_nat calls)] else trace)
                                ++ [EvDo url; EvLog])) as (n & Ha & Hc).
      exists (S n). rewrite Ha, Hc, attempts_app, slept_app, attempts_sleep, Hs.
      simpl attempts. simpl slept. split; [lia | nia].
    + destruct (StatusCode resp =? StatusOK).
      * exists 1%nat.
        destruct (Body resp); simpl snd;
          rewrite attempts_app, slept_app, attempts_sleep, Hs;
          simpl attempts; simpl slept; (split; [lia | nia]).
      * destruct (IH (S calls) ((if 0 <? Z.of_nat calls
                                 then trace ++ [EvSleep (2 * Z.of_nat calls)] else trace)
                                  ++ [EvDo url; EvLog; EvClose])) as (n & Ha & Hc).
        exists (S n). rewrite Ha, Hc, attempts_app, slept_app, attempts_sleep, Hs.
        simpl attempts. simpl slept. split; [lia | nia].
Qed.

Lemma fetcher_loop_rejected_slept (url : string) (net : Network) (iters : list Z) :
  newRequestOk net = false ->
  forall (calls : nat) (trace : list fetch_event),
    slept (snd (fetcher_loop url net iters calls trace)) = slept trace.
Proof.
  intros Hreq. induction iters as [|i rest IH]; intros calls trace; simpl; [reflexivity|].
  rewrite Hreq. simpl. rewrite IH, slept_app. simpl. lia.
Qed.

(** The back-off of [fetcher]: before its request number [k] (from 0) it
    sleeps [2 * k] seconds, so a run that makes [n] requests has slept
    [n * (n - 1)] seconds, 20 at most, and a run that succeeds at once has
    not slept at all. *)
Theorem fetcher_backoff (url : string) (net : Network) :
  slept (snd (fetcher url net))
    = Z.of_nat (attempts (snd (fetcher url net)))
      * (Z.of_nat (attempts (snd (fetcher url net))) - 1) /\
  0 <= slept (snd (fetcher url net)) <= 20.
Proof.
  assert (H : slept (snd (fetcher url net))
              = Z.of_nat (attempts (snd (fetcher url net)))
                * (Z.of_nat (attempts (snd (fetcher url net))) - 1)).
  { unfold fetcher. destruct (newRequestOk net) eqn:Hreq.
    - destruct (fetcher_loop_slept url net 5 Hreq 0%nat []) as (n & Ha & Hs).
      change (map Z.of_nat (seq 0 5)) with [0; 1; 2; 3; 4] in Ha, Hs.
      rewrite Ha, Hs. simpl. nia.
    - destruct (fetcher_loop_no_request url net [0; 1; 2; 3; 4] Hreq 0%nat []) as [_ ->].
      rewrite fetcher_loop_rejected_slept by exact Hreq. reflexivity. }
  split; [exact H|].
  pose proof (fetcher_loop_attempts_le url net [0; 1; 2; 3; 4] 0 []) as Hle.
  fold (fetcher url net) in Hle. simpl in Hle. rewrite H. nia.
Qed.

(** A URL that [http.NewRequest] refuses is never requested: [fetcher]
    sends [nil] without a request and without a sleep. *)
Theorem fetcher_rejected_url (url : string) (net : Network) :
  newRequestOk net = false ->
  fst (fetcher url net) = Sent None /\
  attempts (snd (fetcher url net)) = 0%nat /\
  slept (snd (fetcher url net)) = 0.
Proof.
  intros Hreq. unfold fetcher.
  destruct (fetcher_loop_no_request url net [0; 1; 2; 3; 4] Hreq 0%nat []) as [-> ->].
  rewrite fetcher_loop_rejected_slept by exact Hreq. auto.
Qed.

Lemma fetcher_rejected_url_witness :
  fst (fetcher "http://bad host/" {| newRequestOk := false; Do := fun _ => DoError |})
    = Sent None /\
  attempts (snd (fetcher "http://bad host/"
                   {| newRequestOk := false; Do := fun _ => DoError |})) = 0%nat.
Proof.
  destruct (fetcher_rejected_url "http://bad host/"
              {| newRequestOk := false; Do := fun _ => DoError |} eq_refl) as (H1 & H2 & _).
  split; [exact H1 | exact H2].
Defined.

(** ** The parser *)

Lemma parser_anchor_accepted_link (disabledLinks : list string) (crawledSet : CrawledSet)
    (queue : Queue) (href : string) :
  parser_anchor disabledLinks crawledSet queue href =
  match accepted_link disabledLinks crawledSet href with
  | Some url => enqueue url queue
  | None => queue
  end.
Proof.
  unfold parser_anchor, accepted_link. destruct (resolve href) as [u|]; [|reflexivity].
  destruct (admissible disabledLinks crawledSet u); reflexivity.
Qed.

Lemma fold_parser_anchor_elements (disabledLinks : list string) (crawledSet : CrawledSet)
    (hrefs : list string) :
  forall queue : Queue,
    elements (fold_left (parser_anchor disabledLinks crawledSet) hrefs queue)
      = elements queue ++ accepted_links disabledLinks crawledSet hrefs.
Proof.
  induction hrefs as [|href hrefs IH]; intros queue; simpl.
  - now rewrite app_nil_r.
  - rewrite IH, parser_anchor_accepted_link.
    destruct (accepted_link disabledLinks crawledSet href) as [url|]; [|reflexivity].
    simpl. now rewrite <- app_assoc.
Qed.

Lemma accepted_links_app (disabledLinks : list string) (crawledSet : CrawledSet)
    (l1 l2 : list string) :
  accepted_links disabledLinks crawledSet (l1 ++ l2)
    = accepted_links disabledLinks crawledSet l1 ++ accepted_links disabledLinks crawledSet l2.
Proof.
  induction l1 as [|h l1 IH]; simpl; [reflexivity|].
  destruct (accepted_link disabledLinks crawledSet h); [simpl; now rewrite IH | exact IH].
Qed.

(** A run of [parser] puts the links of the page that pass behind what the
    queue held, in document order, and as often as they occur on the page:
    nothing is dropped for being on the page twice, and nothing that was
    queued is moved or removed. *)
Theorem parser_enqueues_in_document_order
    (disabledLinks : list string) (doc : Document) (queue : Queue) (currUrl : string)
    (crawledSet : CrawledSet) (fs : fs_file) (log : list log_entry) :
  elements (fst (parser disabledLinks doc queue currUrl crawledSet fs log))
    = elements queue ++ accepted_links disabledLinks crawledSet (anchors doc) /\
  (forall hrefs : list string,
      accepted_links disabledLinks crawledSet (hrefs ++ hrefs)
        = accepted_links disabledLinks crawledSet hrefs
          ++ accepted_links disabledLinks crawledSet hrefs).
Proof.
  split.
  - unfold parser. simpl. apply fold_parser_anchor_elements.
  - intros hrefs. apply accepted_links_app.
Qed.

(** ** The counters along a crawl *)

Lemma enqueue_counters (k : Z) (q : Queue) (url : string) :
  number q = wrap_int (Z.of_nat (length (elements q))) ->
  totalQueued q = wrap_int (k + Z.of_nat (length (elements q))) ->
  number (enqueue url q) = wrap_int (Z.of_nat (length (elements (enqueue url q)))) /\
  totalQueued (enqueue url q)
    = wrap_int (k + Z.of_nat (length (elements (enqueue url q)))).
Proof.
  intros Hn Ht. simpl. rewrite Hn, Ht, !wrap_int_add_l, length_app. simpl.
  split; f_equal; lia.
Qed.

Lemma parser_anchor_counters (disabledLinks : list string) (crawledSet : CrawledSet)
    (k : Z) (q : Queue) (href : string) :
  number q = wrap_int (Z.of_nat (length (elements q))) ->
  totalQueued q = wrap_int (k + Z.of_nat (length (elements q))) ->
  number (parser_anchor disabledLinks crawledSet q href)
    = wrap_int (Z.of_nat (length (elements (parser_anchor disabledLinks crawledSet q href)))) /\
  totalQueued (parser_anchor disabledLinks crawledSet q href)
    = wrap_int (k + Z.of_nat (length (elements (parser_anchor disabledLinks crawledSet q href)))).
Proof.
  intros Hn Ht. rewrite parser_anchor_accepted_link.
  destruct (accepted_link disabledLinks crawledSet href); [|auto].
  now apply enqueue_counters.
Qed.

Lemma fold_parser_anchor_counters (disabledLinks : list string) (crawledSet : CrawledSet)
    (k : Z) (hrefs : list string) :
  forall q : Queue,
    number q = wrap_int (Z.of_nat (length (elements q))) ->
    totalQueued q = wrap_int (k + Z.of_nat (length (elements q))) ->
    let q' := fold_left (parser_anchor disabledLinks crawledSet) hrefs q in
    number q' = wrap_int (Z.of_nat (length (elements q'))) /\
    totalQueued q' = wrap_int (k + Z.of_nat (length (elements q'))).
Proof.
  induction hrefs as [|href hrefs IH]; intros q Hn Ht; simpl; [auto|].
  destruct (parser_anchor_counters disabledLinks crawledSet k q href Hn Ht) as [Hn' Ht'].
  now apply IH.
Qed.

Lemma seed_counters_agree (disabledLinks : list string) (net : Network) (fs : fs_file)
    (s : Crawler) :
  seed disabledLinks net fs = Next s -> counters_agree s.
Proof.
  unfold seed, counters_agree.
  destruct (fst (fetcher host net)) as [[doc|]|]; try discriminate.
  - unfold parser. destruct (writeToFile _ _ _ _) as [fs1 log1].
    intros H; inversion H; subst; clear H. simpl.
    destruct (fold_parser_anchor_counters disabledLinks (add host new_crawled) 0
                (anchors doc) new_queue eq_refl eq_refl) as [Hn Ht].
    simpl in Hn, Ht. rewrite Hn, Ht.
    repeat split; try lia. constructor; [|constructor].
    now apply contains_add_fingerprint.
  - intros H; inversion H; subst; clear H. simpl.
    repeat split; try lia. constructor; [|constructor].
    now apply contains_add_fingerprint.
Qed.

Lemma step_counters_agree (disabledLinks : list string) (e : event) (s s' : Crawler) :
  counters_agree s -> step disabledLinks e s = Next s' -> counters_agree s'.
Proof.
  unfold counters_agree. intros (Hn & Ht & Hc & Hlen & Hall).
  destruct e as [net| |i]; simpl.
  - destruct (in_loop s); simpl; [|discriminate].
    destruct (loop_condition s) eqn:Hl; [|discriminate].
    apply loop_condition_true in Hl. destruct Hl as [_ Hl]. unfold ceiling in Hl.
    intros H. apply iteration_next in H.
    destruct H as (u & q & Hd & -> & -> & -> & _).
    unfold dequeue in Hd. destruct (elements (queue s)) as [|u' rest] eqn:Hel; [discriminate|].
    inversion Hd; subst; clear Hd. simpl. rewrite length_app. simpl in *.
    rewrite Nat2Z.inj_succ in Hn, Ht. unfold Z.succ in Hn, Ht.
    rewrite Hn, Ht, wrap_int_succ_pred.
    assert (Hs : wrap_int (cnumber (crawled s) + 1) = cnumber (crawled s) + 1)
      by (apply wrap_int_small; unfold in_int, size_c in *; lia).
    unfold size_c in *. simpl. rewrite Hs.
    split; [f_equal; lia|]. split; [f_equal; lia|]. split; [lia|]. split; [lia|].
    apply Forall_app. split.
    + eapply Forall_impl; [exact Hall|]. intros v Hv. apply contains_add_iff. now right.
    + constructor; [|constructor]. now apply contains_add_fingerprint.
  - destruct (_ && _); [|discriminate]. intros H. inversion H; subst. simpl. auto.
  - intros H. apply extract_next in H.
    destruct H as (-> & -> & _ & _ & t & _ & [(h & r & _ & -> & _) | (_ & -> & _)]);
      [|auto].
    destruct (parser_anchor_counters disabledLinks (crawled s)
                (Z.of_nat (length (fetched s)) - 1) (queue s) h Hn Ht) as [Hn' Ht'].
    auto.
Qed.

Lemma crawl_counters_agree (disabledLinks : list string) (net : Network) (fs : fs_file)
    (es : list event) (s : Crawler) :
  crawl disabledLinks net fs es = Next s -> counters_agree s.
Proof.
  apply crawl_invariant.
  - apply seed_counters_agree.
  - apply step_counters_agree.
Qed.

Lemma step_not_crashed (disabledLinks : list string) (e : event) (s : Crawler)
    (err : runtime_error) :
  counters_agree s -> step disabledLinks e s <> Crashed err.
Proof.
  intros (Hn & _). destruct e as [net| |i]; simpl.
  - destruct (in_loop s); simpl; [|discriminate].
    destruct (loop_condition s) eqn:Hl; [|discriminate].
    apply loop_condition_true in Hl. destruct Hl as [Hl _]. unfold size_q in Hl.
    unfold iteration, dequeue. destruct (elements (queue s)) as [|u rest].
    + rewrite Hn in Hl. change (wrap_int (Z.of_nat (length []))) with 0 in Hl. lia.
    + destruct (fst (fetcher u net)) as [[doc|]|]; discriminate.
  - destruct (_ && _); discriminate.
  - unfold extract. destruct (running s !! i) as [t|]; [|discriminate].
    destruct (pending t); [|discriminate].
    destruct (writeToFile _ _ _ _). discriminate.
Qed.

Lemma run_not_crashed (disabledLinks : list string) (err : runtime_error)
    (es : list event) :
  forall s : Crawler, counters_agree s -> run disabledLinks es s <> Crashed err.
Proof.
  induction es as [|e es IH]; intros s Hs; simpl; [discriminate|].
  destruct (step disabledLinks e s) as [s'| | |x] eqn:He; try discriminate.
  - apply IH. eapply step_counters_agree; eauto.
  - exfalso. eapply step_not_crashed; eauto.
Qed.

(** No crawl panics: whatever the pages, the servers and the interleaving of
    the parser goroutines with the loop, [dequeue] is never called on an
    empty queue, since [number] stays the length of the slice and the loop
    tests it. *)
Theorem crawl_never_panics (disabledLinks : list string) (net : Network) (fs : fs_file)
    (es : list event) (err : runtime_error) :
  crawl disabledLinks net fs es <> Crashed err.
Proof.
  unfold crawl. destruct (seed disabledLinks net fs) as [s| | |x] eqn:Hs; try discriminate.
  - apply run_not_crashed. eapply seed_counters_agree; eauto.
  - unfold seed in Hs. destruct (fst (fetcher host net)) as [[doc|]|]; try discriminate.
    destruct (parser _ _ _ _ _ _ _) as [q [fs1 log1]]. discriminate.
Qed.

(** Every URL handed to [fetcher] was put into the visited set first, and
    the visited count is the number of URLs fetched so far, the seed
    included; so no crawl fetches more than 500 URLs. *)
Theorem fetched_urls_are_visited (disabledLinks : list string) (net : Network)
    (fs : fs_file) (es : list event) (s : Crawler) :
  crawl disabledLinks net fs es = Next s ->
  Forall (fun url => contains (crawled s) url = true) (fetched s) /\
  size_c (crawled s) = Z.of_nat (length (fetched s)) /\
  (length (fetched s) <= 500)%nat.
Proof.
  intros Hc. apply crawl_counters_agree in Hc.
  destruct Hc as (_ & _ & Hs & Hlen & Hall). repeat split; [exact Hall | exact Hs | lia].
Qed.

Lemma fetched_urls_are_visited_witness :
  exists s,
    crawl [] (serve home_page) (Present "") two_page_schedule = Next s /\
    size_c (crawled s) = Z.of_nat (length (fetched s)) /\
    contains (crawled s) "https://www.sjsu.edu/a" = true.
Proof.
  destruct (crawl [] (serve home_page) (Present "") two_page_schedule) as [s| | |] eqn:Hc;
    try (vm_compute in Hc; discriminate).
  exists s. split; [reflexivity|].
  destruct (fetched_urls_are_visited [] (serve home_page) (Present "")
              two_page_schedule s Hc) as (_ & Hs & _).
  split; [exact Hs|]. vm_compute in Hc. inversion Hc. reflexivity.
Defined.

(** The numbers of the final report fit together: as long as fewer than
    2^62 URLs wait in the queue, [totalQueued] is the number of URLs fetched
    after the seed plus the number still queued, that is
    [crawled.size() - 1 + queue.size()], and [queue.size()] is the length of
    the slice. *)
Theorem report_counters_fit (disabledLinks : list string) (net : Network)
    (fs : fs_file) (es : list event) (s : Crawler) :
  crawl disabledLinks net fs es = Next s ->
  Z.of_nat (length (elements (queue s))) < 2 ^ 62 ->
  size_q (queue s) = Z.of_nat (length (elements (queue s))) /\
  totalQueued (queue s) = size_c (crawled s) - 1 + size_q (queue s).
Proof.
  intros Hc Hb. apply crawl_counters_agree in Hc.
  destruct Hc as (Hn & Ht & Hs & Hlen & _). unfold size_q.
  rewrite Hn, Ht, Hs, !wrap_int_small by (unfold in_int; lia). lia.
Qed.

Lemma report_counters_fit_witness :
  exists s,
    crawl [] (serve home_page) (Present "") two_page_schedule = Next s /\
    totalQueued (queue s) = 2 /\ size_c (crawled s) = 3 /\ size_q (queue s) = 0.
Proof.
  destruct (crawl [] (serve home_page) (Present "") two_page_schedule) as [s| | |] eqn:Hc;
    try (vm_compute in Hc; discriminate).
  exists s. split; [reflexivity|].
  assert (Hv : elements (queue s) = [] /\ size_c (crawled s) = 3)
    by (vm_compute in Hc; inversion Hc; split; reflexivity).
  destruct Hv as [He Hs].
  destruct (report_counters_fit [] (serve home_page) (Present "") two_page_schedule s Hc)
    as [Hq Ht]; [rewrite He; simpl; lia|].
  rewrite He in Hq. simpl in Hq. rewrite Ht, Hs, Hq. repeat split.
Defined.

(** ** Crawls that end after the seed *)

Lemma step_idle (disabledLinks : list string) (e : event) (s s' : Crawler) :
  idle s -> step disabledLinks e s = Next s' ->
  idle s' /\ sink s' = sink s /\ logbook s' = logbook s.
Proof.
  unfold idle. intros (Hf & He & Hn & Hr & Hc). destruct e as [net| |i]; simpl.
  - unfold loop_condition, size_q. rewrite Hn. simpl.
    rewrite andb_false_r. discriminate.
  - destruct (_ && _); [|discriminate]. intros H. inversion H; subst. simpl. auto 10.
  - unfold extract. rewrite Hr. simpl. discriminate.
Qed.

Lemma crawl_idle (disabledLinks : list string) (net : Network) (fs : fs_file)
    (fs0 : fs_file) (log0 : list log_entry) :
  (forall s, seed disabledLinks net fs = Next s ->
             idle s /\ sink s = fs0 /\ logbook s = log0) ->
  forall es s, crawl disabledLinks net fs es = Next s ->
               idle s /\ sink s = fs0 /\ logbook s = log0.
Proof.
  intros Hseed.
  apply (crawl_invariant disabledLinks net fs
           (fun s => idle s /\ sink s = fs0 /\ logbook s = log0)); [exact Hseed|].
  intros e s s' (Hi & Hs & Hl) He.
  destruct (step_idle disabledLinks e s s' Hi He) as (Hi' & Hs' & Hl').
  split; [exact Hi'|]. split; congruence.
Qed.

(** When the seed page cannot be fetched, the crawl is over: in every
    schedule only the seed was handed to [fetcher], the queue is empty, no
    parser goroutine runs, the visited count is 1, the output file is
    untouched and [writeToFile] has logged no error (the failed attempts
    themselves are logged by [fetcher], see [EvLog]). *)
Theorem failed_seed_ends_the_crawl (disabledLinks : list string) (net : Network)
    (fs : fs_file) (es : list event) (s : Crawler) :
  fst (fetcher host net) = Sent None ->
  crawl disabledLinks net fs es = Next s ->
  fetched s = [host] /\ elements (queue s) = [] /\ running s = [] /\
  size_c (crawled s) = 1 /\ sink s = fs /\ logbook s = [].
Proof.
  intros Hf Hc.
  destruct (crawl_idle disabledLinks net fs fs []) with (es := es) (s := s)
    as ((H1 & H2 & _ & H4 & H5) & H6 & H7); [|exact Hc|].
  - intros s0. unfold seed. rewrite Hf. intros H; inversion H; subst. unfold idle. simpl.
    auto 10.
  - rewrite H5. auto 10.
Qed.

Lemma failed_seed_ends_the_crawl_witness :
  exists s,
    crawl ["/private"] always_503 (Present "") [Leave] = Next s /\
    fetched s = [host] /\ size_c (crawled s) = 1 /\ sink s = Present "".
Proof.
  destruct (crawl ["/private"] always_503 (Present "") [Leave]) as [s| | |] eqn:Hc;
    try (vm_compute in Hc; discriminate).
  exists s. split; [reflexivity|].
  destruct (failed_seed_ends_the_crawl ["/private"] always_503 (Present "") [Leave] s)
    as (H1 & _ & _ & H4 & H5 & _); [reflexivity | exact Hc |].
  auto.
Defined.

Lemma occurs_in_extends (d url rest : string) :
  occurs_in d url -> occurs_in d (url +:+ rest).
Proof.
  intros (before & after & ->). exists before, (after +:+ rest).
  now rewrite !string_app_assoc.
Qed.

Lemma blocked_under_host (disabledLinks : list string) (d url : string) :
  In d disabledLinks -> occurs_in d host ->
  HasPrefix url host = true -> isAllowed disabledLinks url = false.
Proof.
  intros Hin Hocc Hp. apply HasPrefix_spec in Hp. destruct Hp as [rest ->].
  destruct (isAllowed disabledLinks (host +:+ rest)) eqn:Ha; [|reflexivity].
  exfalso. apply (proj1 (isAllowed_true_iff _ _) Ha d Hin).
  now apply occurs_in_extends.
Qed.

Lemma blocked_parser_anchor (disabledLinks : list string) (d : string) :
  In d disabledLinks -> occurs_in d host ->
  forall (crawledSet : CrawledSet) (queue : Queue) (href : string),
    parser_anchor disabledLinks crawledSet queue href = queue.
Proof.
  intros Hin Hocc crawledSet queue href.
  destruct (parser_anchor_cases disabledLinks crawledSet queue href)
    as [Hq | (url & _ & _ & Hp & Ha & _)]; [exact Hq|].
  rewrite (blocked_under_host disabledLinks d url Hin Hocc Hp) in Ha. discriminate.
Qed.

(** A disallowed path that occurs in the host URL itself, as "/" does after
    "Disallow: /", refuses every link: the parser never enqueues anything,
    and every crawl fetches the seed and nothing else. *)
Theorem disallowed_host_stops_the_crawl (disabledLinks : list string) (d : string) :
  In d disabledLinks -> occurs_in d host ->
  (forall (crawledSet : CrawledSet) (queue : Queue) (href : string),
      parser_anchor disabledLinks crawledSet queue href = queue) /\
  (forall (net : Network) (fs : fs_file) (es : list event) (s : Crawler),
      crawl disabledLinks net fs es = Next s ->
      fetched s = [host] /\ elements (queue s) = [] /\ running s = []).
Proof.
  intros Hin Hocc. split; [now apply (blocked_parser_anchor disabledLinks d)|].
  intros net fs es s Hc.
  assert (Hfold : forall hrefs q,
            fold_left (parser_anchor disabledLinks (add host new_crawled)) hrefs q = q).
  { induction hrefs as [|h hrefs IH]; intros q; simpl; [reflexivity|].
    now rewrite (blocked_parser_anchor disabledLinks d Hin Hocc), IH. }
  destruct (seed disabledLinks net fs) as [s0| | |] eqn:Hs;
    try (unfold crawl in Hc; rewrite Hs in Hc; discriminate).
  destruct (crawl_idle disabledLinks net fs (sink s0) (logbook s0)) with (es := es) (s := s)
    as ((H1 & H2 & _ & H4 & _) & _); [|exact Hc|auto].
  intros s1 Hs1. rewrite Hs in Hs1. inversion Hs1; subst s1. clear Hs1.
  split; [|auto]. unfold seed in Hs.
  destruct (fst (fetcher host net)) as [[doc|]|]; try discriminate.
  - unfold parser in Hs. rewrite Hfold in Hs. destruct (writeToFile _ _ _ _) as [fs1 log1].
    inversion Hs; subst. unfold idle. simpl. auto 10.
  - inversion Hs; subst. unfold idle. simpl. auto 10.
Qed.

Lemma disallowed_host_stops_the_crawl_witness :
  In "/" ["/"] /\ occurs_in "/" host /\
  parser_anchor ["/"] (add host new_crawled) new_queue "/a" = new_queue.
Proof.
  assert (Hocc : occurs_in "/" host) by (apply Contains_spec; reflexivity).
  split; [now left|]. split; [exact Hocc|].
  apply (proj1 (disallowed_host_stops_the_crawl ["/"] "/" ltac:(now left) Hocc)).
Defined.

(** ** After the loop *)

Lemma step_after_loop (disabledLinks : list string) (e : event) (s s' : Crawler) :
  in_loop s = false -> step disabledLinks e s = Next s' ->
  in_loop s' = false /\ fetched s' = fetched s /\ crawled s' = crawled s /\
  exists new : list string, elements (queue s') = elements (queue s) ++ new.
Proof.
  intros Hl. destruct e as [net| |i]; simpl.
  - rewrite Hl. discriminate.
  - rewrite Hl. discriminate.
  - intros H. apply extract_next in H.
    destruct H as (-> & -> & -> & _ & t & _ & [(h & r & _ & -> & _) | (_ & -> & _)]).
    + repeat split; [exact Hl|]. apply parser_anchor_appends.
    + repeat split; [exact Hl|]. exists []. now rewrite app_nil_r.
Qed.

(** Once [main] has left the loop nothing is fetched any more: whatever the
    parser goroutines still running do, the visited set and the list of
    fetched URLs stay as they are, and the links those goroutines enqueue
    stay in the queue, behind what was there. *)
Theorem nothing_is_fetched_after_the_loop (disabledLinks : list string)
    (es : list event) (s s' : Crawler) :
  in_loop s = false ->
  run disabledLinks es s = Next s' ->
  in_loop s' = false /\ fetched s' = fetched s /\ crawled s' = crawled s /\
  exists new : list string, elements (queue s') = elements (queue s) ++ new.
Proof.
  revert s. induction es as [|e es IH]; intros s Hl Hrun; simpl in Hrun.
  - inversion Hrun; subst. repeat split; [exact Hl|]. exists []. now rewrite app_nil_r.
  - destruct (step disabledLinks e s) as [s1| | |] eqn:He; try discriminate.
    destruct (step_after_loop disabledLinks e s s1 Hl He) as (Hl1 & Hf1 & Hc1 & new1 & Hq1).
    destruct (IH s1 Hl1 Hrun) as (Hl' & Hf' & Hc' & new & Hq').
    repeat split; [exact Hl' | congruence | congruence|].
    exists (new1 ++ new). now rewrite Hq', Hq1, app_assoc.
Qed.

Lemma nothing_is_fetched_after_the_loop_witness :
  let s := {| queue := new_queue; crawled := add host new_crawled;
              running := [mkTask ["/b"; "#top"] "home" host];
              in_loop := false; sink := Present ""; logbook := [];
              fetched := [host]; dispatched := 0 |} in
  exists s',
    run [] [Extract 0; Extract 0; Extract 0] s = Next s' /\
    fetched s' = [host] /\ elements (queue s') = ["https://www.sjsu.edu/b"].
Proof.
  intros s.
  destruct (run [] [Extract 0; Extract 0; Extract 0] s) as [s'| | |] eqn:Hrun;
    try (vm_compute in Hrun; discriminate).
  exists s'. split; [reflexivity|].
  destruct (nothing_is_fetched_after_the_loop [] [Extract 0; Extract 0; Extract 0] s s'
              eq_refl Hrun) as (_ & Hf & _).
  split; [exact Hf|]. vm_compute in Hrun. inversion Hrun. reflexivity.
Defined.

(** ** The output file along a crawl *)



